(** * Loop perforation passes (loop-perf/LoopPerforation.cpp)

    A shallow embedding of the two LLVM passes of the repository:

    - [LoopCountPass] (the discovery pass, [opt -loop-count]) walks the loop
      forest of every function, asks [isLoopPerforable] and records the
      fingerprint [StringifyLoop] of every perforable loop in a JSON catalog
      that its destructor writes to [InfoFilename];
    - [LoopPerforationPass] (the rewrite pass, [opt -loop-perf]) reads the
      rates from [RatesFilename] and, for every loop whose fingerprint is in
      that table, overwrites the step operand of the induction variable's
      increment.

    The passes are written against two libraries that are not part of the
    repository: LLVM (IR, [LoopInfo]) and nlohmann::json.  The part of their
    behaviour the passes rely on is modelled in the first half of the file;
    the second half translates the source functions one by one and the last
    part states and proves the properties. *)

From stdpp Require Import gmap strings list fin_maps.
From Stdlib Require Import ZArith.

#[local] Set Warnings "-register-all".
#[local] Open Scope Z_scope.

(* ===================================================================== *)
(** * Failures *)
(* ===================================================================== *)

(** The C++ code has three ways of not returning: dereferencing a null
    pointer (undefined behaviour), an nlohmann [type_error] exception that
    nobody catches, and LLVM's [cast<IntegerType>] on a type that is not an
    integer type. *)
Inductive fault : Type :=
  | NullDereference
  | JsonTypeError
  | NotIntegerType.

Inductive outcome (A : Type) : Type :=
  | Ok (a : A)
  | Fault (e : fault).
Arguments Ok {A} a.
Arguments Fault {A} e.

(* ===================================================================== *)
(** * nlohmann::json, as far as the passes use it *)
(* ===================================================================== *)

Module Json.

(** A JSON value, after the [basic_json] of [json.hpp].  Objects are
    [std::map<std::string, json>]: a finite map with unique keys.  Floating
    point numbers are left out. *)
Inductive json : Type :=
  | JNull
  | JBool (b : bool)
  | JInt (n : Z)
  | JString (s : string)
  | JArray (l : list json)
  | JObject (m : gmap string json).

(** [j.contains(key)]: false on everything that is not an object. *)
Definition contains (j : json) (key : string) : bool :=
  match j with
  | JObject m => match m !! key with Some _ => true | None => false end
  | _ => false
  end.

(** [j.empty()]: null is empty, containers are empty when they have no
    element, every other value is not. *)
Definition empty (j : json) : bool :=
  match j with
  | JNull => true
  | JArray l => match l with [] => true | _ :: _ => false end
  | JObject m => bool_decide (size m = 0%nat)
  | _ => false
  end.

(** [j[k1][k2]...[kn]] with the non-const [operator[]]: a null value turns
    into an object, a missing key is inserted with a null value, and any
    other value throws [type_error].  The result is the element reached and
    the root as the chain of subscripts leaves it. *)
Fixpoint subscript (j : json) (keys : list string) : outcome (json * json) :=
  match keys with
  | [] => Ok (j, j)
  | k :: ks =>
      match j with
      | JNull =>
          match subscript JNull ks with
          | Ok (e, sub) => Ok (e, JObject {[ k := sub ]})
          | Fault f => Fault f
          end
      | JObject m =>
          match subscript (default JNull (m !! k)) ks with
          | Ok (e, sub) => Ok (e, JObject (<[ k := sub ]> m))
          | Fault f => Fault f
          end
      | _ => Fault JsonTypeError
      end
  end.

(** [j[k1][k2]...[kn] = v]. *)
Fixpoint assign (j : json) (keys : list string) (v : json) : outcome json :=
  match keys with
  | [] => Ok v
  | k :: ks =>
      match j with
      | JNull =>
          match assign JNull ks v with
          | Ok sub => Ok (JObject {[ k := sub ]})
          | Fault f => Fault f
          end
      | JObject m =>
          match assign (default JNull (m !! k)) ks v with
          | Ok sub => Ok (JObject (<[ k := sub ]> m))
          | Fault f => Fault f
          end
      | _ => Fault JsonTypeError
      end
  end.

(** A C++ [int]: 32 bits, two's complement. *)
Definition to_int (n : Z) : Z := (n + 2 ^ 31) mod 2 ^ 32 - 2 ^ 31.

(** The implicit conversion [int x = j]: numbers and booleans are cast with
    [static_cast<int>], everything else throws [type_error]. *)
Definition get_int (j : json) : outcome Z :=
  match j with
  | JInt n => Ok (to_int n)
  | JBool b => Ok (if b then 1 else 0)
  | _ => Fault JsonTypeError
  end.

(** The value of [x = {}]: the braces value-initialise the right-hand side,
    which is the null value. *)
Definition placeholder : json := JNull.

(** Read-only view of a three-level table: the element stored under
    [m], [f], [fp], if there is one. *)
Definition member (j : json) (key : string) : option json :=
  match j with
  | JObject m => m !! key
  | _ => None
  end.

Definition lookup3 (j : json) (m f fp : string) : option json :=
  match member j m with
  | Some jm =>
      match member jm f with
      | Some jf => member jf fp
      | None => None
      end
  | None => None
  end.

End Json.
Import Json.

(* ===================================================================== *)
(** * The LLVM IR the passes look at *)
(* ===================================================================== *)

Inductive Ty : Type :=
  | IntegerTy (bits : N)
  | OtherTy.

(** A [BasicBlock*] is the block's name; a [Value*] is either a uniqued
    integer constant (type and bit pattern), the result of the instruction
    stored at an index of the function's instruction pool, or anything else
    (argument, global, floating point constant...). *)
Definition BasicBlockRef := string.

Inductive Value : Type :=
  | ConstantInt (bits : N) (val : Z)
  | InstRef (id : nat)
  | OtherValue (ty : Ty) (id : nat).

Inductive BinaryOps : Type := Add | Sub | Mul | Shl | FAdd.

Inductive Instruction : Type :=
  | PHINode (ty : Ty) (incoming : list (Value * BasicBlockRef))
  | BinaryOperator (opc : BinaryOps) (ty : Ty) (op0 op1 : Value)
  | OtherInstruction (ty : Ty) (ops : list Value).

Record BasicBlock : Type := mkBlock {
  bb_name : string;
  bb_insts : list nat;           (* layout order, PHI nodes first *)
  bb_succs : list BasicBlockRef  (* targets of the terminator *)
}.

(** A loop of [LoopInfo].  [isLoopSimplifyForm] is the verdict of LLVM's
    loop-simplify analysis (preheader, single latch, dedicated exits). *)
Inductive Loop : Type := mkLoop {
  getHeader : BasicBlockRef;
  getBlocks : list BasicBlockRef;
  isLoopSimplifyForm : bool;
  getSubLoops : list Loop
}.

Record Function : Type := mkFunction {
  getName : string;
  getParentName : string;        (* F->getParent()->getName() *)
  f_insts : list Instruction;    (* the pool [InstRef] indexes *)
  f_blocks : list BasicBlock;
  getLoopInfo : list Loop        (* top-level loops *)
}.

#[global] Instance Ty_eq_dec : EqDecision Ty.
Proof. solve_decision. Defined.
#[global] Instance Value_eq_dec : EqDecision Value.
Proof. solve_decision. Defined.
#[global] Instance BinaryOps_eq_dec : EqDecision BinaryOps.
Proof. solve_decision. Defined.

(** ** Values and instructions *)

Definition operands (I : Instruction) : list Value :=
  match I with
  | PHINode _ incoming => incoming.*1
  | BinaryOperator _ _ op0 op1 => [op0; op1]
  | OtherInstruction _ ops => ops
  end.

Definition inst_type (I : Instruction) : Ty :=
  match I with
  | PHINode ty _ => ty
  | BinaryOperator _ ty _ _ => ty
  | OtherInstruction ty _ => ty
  end.

(** [V->getType()]; [None] for a reference that points nowhere. *)
Definition getType (F : Function) (V : Value) : option Ty :=
  match V with
  | ConstantInt bits _ => Some (IntegerTy bits)
  | InstRef id => inst_type <$> f_insts F !! id
  | OtherValue ty _ => Some ty
  end.

(** [ConstantInt::get(Ty, V, isSigned)] with [V] an [int] widened to
    [uint64_t]: the bits of [V] cut to the width of the type.  The constant
    is kept as its unsigned bit pattern. *)
Definition ConstantInt_get (ty : Ty) (V : Z) : outcome Value :=
  match ty with
  | IntegerTy bits => Ok (ConstantInt bits (V mod 2 ^ Z.of_N bits))
  | OtherTy => Fault NotIntegerType
  end.

(** The value of an integer constant read as a signed number. *)
Definition getSExtValue (bits : N) (val : Z) : Z :=
  if decide (val < 2 ^ (Z.of_N bits - 1)) then val else val - 2 ^ Z.of_N bits.

(** [V->users()]: one entry per use, so an instruction that has [V] as both
    operands is listed twice.  LLVM threads the use list in an order of its
    own; here it is the order of the pool, which is arbitrary. *)
Definition uses_of (V : Value) (i : nat) (I : Instruction) : list nat :=
  (λ _, i) <$> filter (λ op, op = V) (operands I).

Definition users (F : Function) (V : Value) : list nat :=
  mjoin (imap (uses_of V) (f_insts F)).

(** [PHI->incoming_values()]. *)
Definition incoming_values (F : Function) (PHI : nat) : list Value :=
  match f_insts F !! PHI with
  | Some (PHINode _ incoming) => incoming.*1
  | _ => []
  end.

Definition isa_BinaryOperator (F : Function) (V : Value) : bool :=
  match V with
  | InstRef id =>
      match f_insts F !! id with
      | Some (BinaryOperator _ _ _ _) => true
      | _ => false
      end
  | _ => false
  end.

(** [Use::set]: operand [idx] of an instruction is pointed at [V]. *)
Definition setOperand (I : Instruction) (idx : nat) (V : Value) : Instruction :=
  match I with
  | PHINode ty incoming =>
      PHINode ty (imap (λ k e, if decide (k = idx) then (V, e.2) else e) incoming)
  | BinaryOperator opc ty op0 op1 =>
      match idx with
      | O => BinaryOperator opc ty V op1
      | S O => BinaryOperator opc ty op0 V
      | _ => I
      end
  | OtherInstruction ty ops => OtherInstruction ty (<[ idx := V ]> ops)
  end.

(** The function with the instruction at [id] replaced. *)
Definition replaceInstruction (F : Function) (id : nat) (Inst : Instruction)
  : Function :=
  mkFunction (getName F) (getParentName F) (<[ id := Inst ]> (f_insts F))
             (f_blocks F) (getLoopInfo F).

(** ** Control flow and loops *)

Definition getBlock (F : Function) (B : BasicBlockRef) : option BasicBlock :=
  find (λ b, bool_decide (bb_name b = B)) (f_blocks F).

Definition successors (F : Function) (B : BasicBlockRef) : list BasicBlockRef :=
  match getBlock F B with
  | Some b => bb_succs b
  | None => []
  end.

(** Predecessors of a block, one entry per edge. *)
Definition predecessors (F : Function) (B : BasicBlockRef) : list BasicBlockRef :=
  b ← f_blocks F; (λ _, bb_name b) <$> filter (λ s, s = B) (bb_succs b).

(** [L->contains(BB)]. *)
Definition contains (L : Loop) (BB : BasicBlockRef) : bool :=
  bool_decide (BB ∈ getBlocks L).

(** [L->isLoopLatch(BB)]: [BB] is a predecessor of the header. *)
Definition isLoopLatch (F : Function) (L : Loop) (BB : BasicBlockRef) : bool :=
  bool_decide (BB ∈ predecessors F (getHeader L)).

(** [L->isLoopExiting(BB)]: some successor of [BB] is outside the loop. *)
Definition isLoopExiting (F : Function) (L : Loop) (BB : BasicBlockRef) : bool :=
  existsb (λ Succ, negb (contains L Succ)) (successors F BB).

(** [BB->printAsOperand(OS, false)]: the label of the block behind a
    percent sign (for a block without a name the label is its slot
    number). *)
Definition printAsOperand (BB : BasicBlockRef) : string := "%" +:+ BB.

(** [Loop::getIncomingAndBackEdge]: the header has exactly two incoming
    edges, one from outside the loop and one from inside. *)
Definition getIncomingAndBackEdge (F : Function) (L : Loop)
  : option (BasicBlockRef * BasicBlockRef) :=
  match predecessors F (getHeader L) with
  | [Backedge; Incoming] =>
      if contains L Incoming then
        if contains L Backedge then None else Some (Backedge, Incoming)
      else
        if contains L Backedge then Some (Incoming, Backedge) else None
  | _ => None
  end.

(** [PN->getIncomingValueForBlock(BB)]: the value of the first entry for
    [BB]. *)
Definition getIncomingValueForBlock
  (incoming : list (Value * BasicBlockRef)) (BB : BasicBlockRef) : option Value :=
  fst <$> find (λ e, bool_decide (e.2 = BB)) incoming.

(** The test [Loop::getCanonicalInductionVariable] applies to a PHI node of
    the header: it starts at the constant zero and its value along the back
    edge is [add PN, 1]. *)
Definition isCanonicalPHI (F : Function) (PN : nat)
  (incoming : list (Value * BasicBlockRef)) (Incoming Backedge : BasicBlockRef) : bool :=
  match getIncomingValueForBlock incoming Incoming with
  | Some (ConstantInt _ init) =>
      if decide (init = 0) then
        match getIncomingValueForBlock incoming Backedge with
        | Some (InstRef Inc) =>
            match f_insts F !! Inc with
            | Some (BinaryOperator Add _ op0 (ConstantInt _ step)) =>
                bool_decide (op0 = InstRef PN) && bool_decide (step = 1)
            | _ => false
            end
        | _ => false
        end
      else false
  | _ => false
  end.

(** The scan over the PHI nodes that open the header. *)
Fixpoint firstCanonicalPHI (F : Function) (Incoming Backedge : BasicBlockRef)
  (ids : list nat) : option nat :=
  match ids with
  | [] => None
  | PN :: rest =>
      match f_insts F !! PN with
      | Some (PHINode _ incoming) =>
          if isCanonicalPHI F PN incoming Incoming Backedge then Some PN
          else firstCanonicalPHI F Incoming Backedge rest
      | _ => None
      end
  end.

(** [L->getCanonicalInductionVariable()], after LLVM's [LoopInfo.cpp]: the
    first PHI node of the header that starts at zero and is incremented by
    one along the back edge.  [None] is the null pointer. *)
Definition getCanonicalInductionVariable (F : Function) (L : Loop) : option nat :=
  match getIncomingAndBackEdge F L with
  | Some (Incoming, Backedge) =>
      match getBlock F (getHeader L) with
      | Some H => firstCanonicalPHI F Incoming Backedge (bb_insts H)
      | None => None
      end
  | None => None
  end.

(* ===================================================================== *)
(** * What a pass can reach, and the monad the passes run in *)
(* ===================================================================== *)

(** Lines written to [errs()]. *)
Inductive Diag : Type :=
  | SkippingLoopInFunction (name : string)
  | Changing (Op NewInc : Value).

(** The function a pass is working on, the pass object's member [j], the
    diagnostic stream and the files written so far (name and the JSON value
    dumped into it). *)
Record PassState : Type := mkState {
  ir : Function;
  j : json;
  errs : list Diag;
  written : list (string * json)
}.

Definition M (A : Type) : Type := PassState → outcome (A * PassState).

#[global] Instance M_ret : MRet M := λ A a s, Ok (a, s).
#[global] Instance M_bind : MBind M :=
  λ A B f m s, match m s with Ok (a, s') => f a s' | Fault e => Fault e end.

Definition fail {A} (e : fault) : M A := λ _, Fault e.
Definition getIR : M Function := λ s, Ok (ir s, s).
Definition getJ : M json := λ s, Ok (j s, s).
Definition putIR (F : Function) : M unit :=
  λ s, Ok (tt, mkState F (j s) (errs s) (written s)).
Definition putJ (j' : json) : M unit :=
  λ s, Ok (tt, mkState (ir s) j' (errs s) (written s)).
Definition emit (d : Diag) : M unit :=
  λ s, Ok (tt, mkState (ir s) (j s) (errs s ++ [d]) (written s)).
Definition writeFile (name : string) (content : json) : M unit :=
  λ s, Ok (tt, mkState (ir s) (j s) (errs s) (written s ++ [(name, content)])).
Definition lift {A} (o : outcome A) : M A :=
  λ s, match o with Ok a => Ok (a, s) | Fault e => Fault e end.

(** [j[k1]...[kn]] on the member [j]. *)
Definition subscriptJ (keys : list string) : M json :=
  jj ← getJ;
  '(e, jj') ← lift (Json.subscript jj keys);
  _ ← putJ jj';
  mret e.

(** [j[k1]...[kn] = v] on the member [j]. *)
Definition assignJ (keys : list string) (v : json) : M unit :=
  jj ← getJ;
  jj' ← lift (Json.assign jj keys v);
  putJ jj'.

(* ===================================================================== *)
(** * The source, function by function *)
(* ===================================================================== *)

(** Command line options and their defaults. *)
Definition InfoFilename_default : string := "loop-info.json".
Definition RatesFilename_default : string := "loop-rates.json".

(** ** StringifyLoop *)

Definition stringifyBlock (F : Function) (L : Loop) (i : nat) (BB : BasicBlockRef)
  : string :=
  (if decide (i = 0%nat) then "" else ",")
  +:+ printAsOperand BB
  +:+ (if decide (BB = getHeader L) then "<header>" else "")
  +:+ (if isLoopLatch F L BB then "<latch>" else "")
  +:+ (if isLoopExiting F L BB then "<exiting>" else "").

Definition StringifyLoop (F : Function) (L : Loop) : string :=
  foldl (λ LoopStream '(i, BB), LoopStream +:+ stringifyBlock F L i BB)
        "" (imap pair (getBlocks L)).

(** ** isLoopPerforable *)

(** [F->getName().find("NO_PERF") != std::string::npos]. *)
Definition name_has_NO_PERF (name : string) : bool :=
  match String.index 0 "NO_PERF" name with
  | Some _ => true
  | None => false
  end.

(** The two nested loops over the users and the incoming values of the PHI
    node.  The [break] leaves the inner loop only, so a later user that is
    an incoming value too replaces an earlier one. *)
Definition findValueToChange (F : Function) (PHI : nat) : option Value :=
  foldl (λ ValueToChange User,
           match find (λ Incoming, bool_decide (Incoming = InstRef User))
                      (incoming_values F PHI) with
           | Some Incoming => Some Incoming
           | None => ValueToChange
           end)
        None (users F (InstRef PHI)).

Definition isLoopPerforable (L : Loop) : M bool :=
  F ← getIR;
  if name_has_NO_PERF (getName F) then
    _ ← emit (SkippingLoopInFunction (getName F));
    mret false
  else
    let IsSimple := isLoopSimplifyForm L in
    if negb IsSimple then mret false
    else
      match getCanonicalInductionVariable F L with
      | None => mret false
      | Some PHI =>
          match findValueToChange F PHI with
          | None => mret false
          | Some ValueToChange =>
              if negb (isa_BinaryOperator F ValueToChange) then mret false
              else mret true
          end
      end.

(** ** LoopCountPass *)

Module LoopCountPass.

(** A fresh pass object: the member [json j] is null. *)
Definition constructor (s : PassState) : PassState :=
  mkState (ir s) JNull (errs s) (written s).

Definition destructor (InfoFilename : string) : M unit :=
  jj ← getJ;
  writeFile InfoFilename jj.

Fixpoint handleLoop (L : Loop) (NumLoops : Z) : M Z :=
  perforable ← isLoopPerforable L;
  NumLoops ←
    ((if (perforable : bool) then
       F ← getIR;
       _ ← assignJ [getParentName F; getName F; StringifyLoop F L] placeholder;
       mret (to_int (NumLoops + 1))
     else mret NumLoops) : M Z);
  (fix subLoops (Ls : list Loop) (NumLoops : Z) : M Z :=
     match Ls with
     | [] => mret NumLoops
     | SubLoop :: rest =>
         NumLoops ← handleLoop SubLoop NumLoops;
         subLoops rest NumLoops
     end) (getSubLoops L) NumLoops.

Fixpoint forLoops (LI : list Loop) (NumLoops : Z) : M Z :=
  match LI with
  | [] => mret NumLoops
  | L :: rest =>
      NumLoops ← handleLoop L NumLoops;
      forLoops rest NumLoops
  end.

Definition runOnFunction : M bool :=
  F ← getIR;
  let LI := getLoopInfo F in
  _ ← forLoops LI 0;
  mret false.

End LoopCountPass.

(** ** LoopPerforationPass *)

Module LoopPerforationPass.

(** The constructor reads [RatesFilename] when the file exists; [rates] is
    its parsed content.  Without the file [j] stays null. *)
Definition constructor (rates : option json) (s : PassState) : PassState :=
  mkState (ir s) (match rates with Some parsed => parsed | None => JNull end)
          (errs s) (written s).

(** The loop over [Increment->operands()]; [idx] is the position of the
    first operand of [ops] in the instruction. *)
Fixpoint perforateOperands (L : Loop) (PHI Increment : nat) (idx : nat)
  (ops : list Value) : M bool :=
  match ops with
  | [] =>
      (* should never reach here *)
      mret false
  | Op :: rest =>
      if decide (Op = InstRef PHI) then
        perforateOperands L PHI Increment (S idx) rest
      else
        F ← getIR;
        jj ← getJ;
        LoopRate ←
          ((if negb (Json.empty jj) then
             leaf ← subscriptJ [getParentName F; getName F; StringifyLoop F L];
             lift (get_int leaf)
           else mret 1) : M Z);
        ConstType ←
          match getType F Op with
          | Some ty => mret ty
          | None => fail NullDereference
          end;
        NewInc ← lift (ConstantInt_get ConstType LoopRate);
        _ ← emit (Changing Op NewInc);
        _ ← match f_insts F !! Increment with
            | Some Inst =>
                putIR (replaceInstruction F Increment (setOperand Inst idx NewInc))
            | None => fail NullDereference
            end;
        mret true
  end.

Definition runOnLoop (L : Loop) : M bool :=
  F ← getIR;
  jj ← getJ;
  if negb (Json.contains jj (getParentName F)) then mret false
  else
    jm ← subscriptJ [getParentName F];
    if negb (Json.contains jm (getName F)) then mret false
    else
      jf ← subscriptJ [getParentName F; getName F];
      if negb (Json.contains jf (StringifyLoop F L)) then mret false
      else
        match getCanonicalInductionVariable F L with
        | None => fail NullDereference
        | Some PHI =>
            match findValueToChange F PHI with
            | None => fail NullDereference
            | Some ValueToChange =>
                match ValueToChange with
                | InstRef Increment =>
                    match f_insts F !! Increment with
                    | Some (BinaryOperator opc ty op0 op1) =>
                        perforateOperands L PHI Increment 0 [op0; op1]
                    | _ => fail NullDereference
                    end
                | _ => fail NullDereference
                end
            end
        end.

End LoopPerforationPass.

(* ===================================================================== *)
(** * A running example *)
(* ===================================================================== *)

(** [[
  define void @foo(i32 %n) {
  entry:    br label %for.cond
  for.cond: %i = phi i32 [ 0, %entry ], [ %inc, %for.inc ]
            %cmp = icmp slt i32 %i, %n
            br i1 %cmp, label %for.body, label %for.end
  for.body: call void @use(i32 %i)
            br label %for.inc
  for.inc:  %inc = add nsw i32 %i, 1
            br label %for.cond
  for.end:  ret void
  }
]] *)
Module Example.

(** The instructions, for an induction variable of [w] bits. *)
Definition insts_w (w : N) : list Instruction :=
  [ PHINode (IntegerTy w) [(ConstantInt w 0, "entry"); (InstRef 3, "for.inc")];
    OtherInstruction (IntegerTy 1) [InstRef 0; OtherValue (IntegerTy w) 0];
    OtherInstruction OtherTy [InstRef 0];
    BinaryOperator Add (IntegerTy w) (InstRef 0) (ConstantInt w 1) ]%string.

Definition blocks : list BasicBlock :=
  [ mkBlock "entry" [] ["for.cond"];
    mkBlock "for.cond" [0; 1] ["for.body"; "for.end"];
    mkBlock "for.body" [2] ["for.inc"];
    mkBlock "for.inc" [3] ["for.cond"];
    mkBlock "for.end" [] [] ]%string%nat.

Definition loop : Loop :=
  mkLoop "for.cond" ["for.cond"; "for.body"; "for.inc"]%string true [].

Definition foo_w (w : N) (name : string) : Function :=
  mkFunction name "mod" (insts_w w) blocks [loop].

Definition foo (name : string) : Function := foo_w 32 name.

Definition fingerprint : string :=
  "%for.cond<header><exiting>,%for.body,%for.inc<latch>".

Definition rates (name : string) (leaf : json) : json :=
  JObject {[ "mod"%string := JObject {[ name := JObject {[ fingerprint := leaf ]} ]} ]}.

(** The world before a pass object exists. *)
Definition world (name : string) : PassState := mkState (foo name) JNull [] [].

(** The rewrite pass in front of [foo], constructed without a rates file
    and with a rates file that holds [leaf] for the loop. *)
Definition no_rates (name : string) : PassState :=
  LoopPerforationPass.constructor None (world name).

Definition with_rate (name : string) (leaf : json) : PassState :=
  LoopPerforationPass.constructor (Some (rates name leaf)) (world name).

(** The same with [foo] counting in [i8]. *)
Definition narrow_with_rate (leaf : json) : PassState :=
  LoopPerforationPass.constructor (Some (rates "foo" leaf))
    (mkState (foo_w 8 "foo") JNull [] []).

(** The rewrite pass in front of [foo] with rates for another function. *)
Definition rates_for_bar : PassState :=
  LoopPerforationPass.constructor (Some (rates "bar" (JInt 4))) (world "foo").

(** [foo] after [%inc = add nsw i32 %i, 1] became [add nsw i32 %i, 4]. *)
Definition foo_perforated (name : string) : Function :=
  replaceInstruction (foo name) 3
    (BinaryOperator Add (IntegerTy 32) (InstRef 0) (ConstantInt 32 4)).

End Example.

(* ===================================================================== *)
(** * Definitions used to state the properties *)
(* ===================================================================== *)

(** The chain of [member] lookups along a list of keys. *)
Fixpoint path (jj : json) (keys : list string) : option json :=
  match keys with
  | [] => Some jj
  | k :: ks =>
      match member jj k with
      | Some e => path e ks
      | None => None
      end
  end.

(** Values on which [operator[]] does not throw. *)
Definition objectish (jj : json) : Prop :=
  match jj with
  | JNull | JObject _ => True
  | _ => False
  end.

(** The shape the discovery pass keeps [j] in: null, or objects three
    levels deep. *)
Definition catalog_shaped (jj : json) : Prop :=
  objectish jj ∧
  ∀ m jm, member jj m = Some jm →
    objectish jm ∧ ∀ f jf, member jm f = Some jf → objectish jf.


(** ** The discovery pass as the pass manager drives it *)

Module Host.

(** The legacy pass manager hands the functions to [runOnFunction] one
    after the other; the result keeps what each call returned and the
    function as the call left it. *)
Fixpoint runOnFunctions (Fs : list Function) : M (list (bool * Function)) :=
  match Fs with
  | [] => mret []
  | F :: rest =>
      _ ← putIR F;
      changed ← LoopCountPass.runOnFunction;
      F' ← getIR;
      results ← runOnFunctions rest;
      mret ((changed, F') :: results)
  end.

(** The life of a [LoopCountPass] object: constructed, run over the
    functions, destroyed. *)
Definition runLoopCountPass (InfoFilename : string) (Fs : list Function)
  : M (list (bool * Function)) :=
  λ s, (results ← runOnFunctions Fs;
        _ ← LoopCountPass.destructor InfoFilename;
        mret results) (LoopCountPass.constructor s).

End Host.

(** ** Loops and verdicts *)

(** Every loop of the forest below [L], [L] first. *)
Fixpoint allLoops (L : Loop) : list Loop :=
  L :: (fix below (Ls : list Loop) : list Loop :=
          match Ls with
          | [] => []
          | SubLoop :: rest => allLoops SubLoop ++ below rest
          end) (getSubLoops L).

Definition loopForest (F : Function) : list Loop :=
  L ← getLoopInfo F; allLoops L.

(** What [isLoopPerforable] returns for a loop of [F]. *)
Definition verdict (F : Function) (L : Loop) : bool :=
  match isLoopPerforable L (mkState F JNull [] []) with
  | Ok (b, _) => b
  | Fault _ => false
  end.

(** The key of a loop in the catalog. *)
Definition catalogKey (F : Function) (L : Loop) : string * string * string :=
  (getParentName F, getName F, StringifyLoop F L).

(** [jj] holds a placeholder for exactly the perforable loops among
    [entries]. *)
Definition records (entries : list (Function * Loop)) (jj : json) : Prop :=
  catalog_shaped jj ∧
  ∀ m f fp leaf,
    lookup3 jj m f fp = Some leaf ↔
    leaf = placeholder ∧
    ∃ F L, (F, L) ∈ entries ∧ verdict F L = true ∧ catalogKey F L = (m, f, fp).

Definition forestEntries (Fs : list Function) : list (Function * Loop) :=
  F ← Fs; (λ L, (F, L)) <$> loopForest F.

Definition isSkipDiag (d : Diag) : Prop :=
  ∃ name, d = SkippingLoopInFunction name.

(** What the discovery pass may do between two states: the function and
    the files stay, [errs()] grows by skip lines, and the catalog goes from
    recording [E] to recording [E']. *)
Definition discovered (s s' : PassState) (E' : list (Function * Loop)) : Prop :=
  ir s' = ir s ∧ written s' = written s ∧
  (∃ ds, errs s' = errs s ++ ds ∧ Forall isSkipDiag ds) ∧
  records E' (j s').

(** What [handleLoop] promises for one loop and everything below it. *)
Definition handleLoop_post (L : Loop) : Prop :=
  ∀ (n : Z) (s : PassState) (E : list (Function * Loop)),
    records E (j s) →
    ∃ n' s', LoopCountPass.handleLoop L n s = Ok (n', s') ∧
             discovered s s' (E ++ ((λ L', (ir s, L')) <$> allLoops L)).

(** The entry of the rate table for a loop of the function in focus. *)
Definition tableEntry (s : PassState) (L : Loop) : option json :=
  lookup3 (j s) (getParentName (ir s)) (getName (ir s)) (StringifyLoop (ir s) L).

(** ** Well-formed IR *)

(** The rule of LLVM's verifier for PHI nodes: one entry per incoming edge
    of the block the node is in. *)
Definition phi_rule (F : Function) : Prop :=
  ∀ b PN ty incoming,
    b ∈ f_blocks F → PN ∈ bb_insts b →
    f_insts F !! PN = Some (PHINode ty incoming) →
    incoming.*2 ≡ₚ predecessors F (bb_name b).

(** ** The eligibility conditions in the words of the specification *)

Module Spec.

Definition has_substring (sub s : string) : Prop :=
  ∃ pre post, s = pre +:+ sub +:+ post.

(** 1. The enclosing function's name contains the substring NO_PERF. *)
Definition ineligible1 (F : Function) : Prop :=
  has_substring "NO_PERF" (getName F).

(** 2. The loop is not in simplified form. *)
Definition ineligible2 (L : Loop) : Prop :=
  isLoopSimplifyForm L = false.

(** 3. No canonical induction variable is found at the header. *)
Definition ineligible3 (F : Function) (L : Loop) : Prop :=
  getCanonicalInductionVariable F L = None.

(** 4. No incoming value of the induction variable is produced by a user
    of the induction variable. *)
Definition ineligible4 (F : Function) (L : Loop) : Prop :=
  ∀ PHI, getCanonicalInductionVariable F L = Some PHI →
    ¬ ∃ v u, v ∈ incoming_values F PHI ∧ u ∈ users F (InstRef PHI) ∧ v = InstRef u.

(** The updating value: the user of the induction variable that is one of
    its incoming values; the last one in the use list when there are
    several. *)
Definition updating_value (F : Function) (PHI : nat) : option Value :=
  InstRef <$>
    last (filter (λ u, InstRef u ∈ incoming_values F PHI) (users F (InstRef PHI))).

(** 5. The updating value is not the result of a binary operation. *)
Definition ineligible5 (F : Function) (L : Loop) : Prop :=
  ∀ PHI v, getCanonicalInductionVariable F L = Some PHI →
    updating_value F PHI = Some v → isa_BinaryOperator F v = false.

Definition isPerforable (F : Function) (L : Loop) : Prop :=
  ¬ ineligible1 F ∧ ¬ ineligible2 L ∧ ¬ ineligible3 F L ∧
  ¬ ineligible4 F L ∧ ¬ ineligible5 F L.

End Spec.

(** The line [isLoopPerforable] writes to [errs()], if any. *)
Definition skipDiag (F : Function) : list Diag :=
  if name_has_NO_PERF (getName F) then [SkippingLoopInFunction (getName F)] else [].

(* ===================================================================== *)
(** * Definitions for the further properties *)
(* ===================================================================== *)

(** ** Files *)

Module Files.

Section Files.

(** [json::parse], from the text of a file to a value or an exception. *)
Variable parse : string → outcome json.

(** The files on disk: name to text. *)
Definition disk := gmap string string.

(** [fileexists]: 1 when [fopen(filename, "r")] succeeds, 0 otherwise. *)
Definition fileexists (fs : disk) (filename : string) : Z :=
  match fs !! filename with
  | Some _ => 1
  | None => 0
  end.

(** The body of [LoopPerforationPass]'s constructor: the table it leaves
    in [j], or the exception of [json::parse]. *)
Definition readRates (fs : disk) (RatesFilename : string) : outcome json :=
  if decide (fileexists fs RatesFilename ≠ 0) then
    match fs !! RatesFilename with
    | Some buffer => parse buffer
    | None => parse ""
    end
  else Ok JNull.

(** The pass object constructed in front of a state, when the constructor
    returns. *)
Definition construct (fs : disk) (RatesFilename : string) (s : PassState)
  : outcome PassState :=
  match readRates fs RatesFilename with
  | Ok parsed => Ok (LoopPerforationPass.constructor (Some parsed) s)
  | Fault e => Fault e
  end.

End Files.

End Files.

(** ** What a rewrite leaves behind *)

(** One operand of one binary operation of [s] was overwritten with an
    integer constant of the operand's type, one line was written to
    [errs()], and nothing else differs between [s] and [s']. *)
Definition oneOperandReplaced (s s' : PassState) : Prop :=
  ∃ Inc opc ty op0 op1 idx Op bits val,
    f_insts (ir s) !! Inc = Some (BinaryOperator opc ty op0 op1) ∧
    [op0; op1] !! idx = Some Op ∧
    getType (ir s) Op = Some (IntegerTy bits) ∧
    s' = mkState
           (replaceInstruction (ir s) Inc
              (setOperand (BinaryOperator opc ty op0 op1) idx (ConstantInt bits val)))
           (j s) (errs s ++ [Changing Op (ConstantInt bits val)]) (written s).

(** ** What a discovery run leaves behind *)

(** [NumLoops] after one more loop. *)
Definition bump (F : Function) (NumLoops : Z) (L : Loop) : Z :=
  if verdict F L then to_int (NumLoops + 1) else NumLoops.

(** [handleLoop], to the line and to the count. *)
Definition handleLoop_exact (L : Loop) : Prop :=
  ∀ (n : Z) (s : PassState) (E : list (Function * Loop)),
    records E (j s) →
    ∃ n' s', LoopCountPass.handleLoop L n s = Ok (n', s') ∧
             ir s' = ir s ∧ written s' = written s ∧
             errs s' = errs s ++ (allLoops L ≫= λ _, skipDiag (ir s)) ∧
             n' = foldl (bump (ir s)) n (allLoops L) ∧
             records (E ++ ((λ L', (ir s, L')) <$> allLoops L)) (j s') ∧
             (Forall (λ L', verdict (ir s) L' = false) (allLoops L) → j s' = j s).

(** One block of a fingerprint: the label and its tags. *)
Definition blockTag (F : Function) (L : Loop) (BB : BasicBlockRef) : string :=
  printAsOperand BB
  +:+ (if decide (BB = getHeader L) then "<header>" else "")
  +:+ (if isLoopLatch F L BB then "<latch>" else "")
  +:+ (if isLoopExiting F L BB then "<exiting>" else "").
(* ===================================================================== *)
(** * Facts about the JSON model *)
(* ===================================================================== *)

Section JsonFacts.

Lemma contains_member (jj : json) (k : string) :
  Json.contains jj k = true ↔ ∃ e, member jj k = Some e.
Proof.
  destruct jj; simpl; try (split; [discriminate | intros [? ?]; discriminate]).
  destruct (m !! k) eqn:E; split; eauto; try discriminate.
  intros [? ?]; discriminate.
Qed.

Lemma contains_false_member (jj : json) (k : string) :
  Json.contains jj k = false ↔ member jj k = None.
Proof.
  destruct jj; simpl; try tauto.
  destruct (m !! k); split; congruence.
Qed.

(** A table with an entry is not [empty()]. *)
Lemma member_not_empty (jj : json) (k : string) (e : json) :
  member jj k = Some e → Json.empty jj = false.
Proof.
  destruct jj; simpl; try discriminate.
  intros H. apply bool_decide_eq_false. intros Hs.
  apply map_size_empty_iff in Hs. subst. rewrite lookup_empty in H. discriminate.
Qed.

(** An empty table has no entry. *)
Lemma empty_member (jj : json) (k : string) :
  Json.empty jj = true → member jj k = None.
Proof.
  intros He. destruct (member jj k) eqn:E; [|done].
  apply member_not_empty in E. congruence.
Qed.


(** Subscripting along keys that are all there returns the element and
    leaves the root as it was. *)
Lemma subscript_existing (keys : list string) : ∀ (jj e : json),
  path jj keys = Some e → Json.subscript jj keys = Ok (e, jj).
Proof.
  induction keys as [|k ks IH]; intros jj e; simpl.
  - intros [= ->]. reflexivity.
  - destruct jj; simpl; try discriminate.
    destruct (m !! k) as [sub|] eqn:E; [|discriminate].
    intros Hp. simpl. rewrite (IH _ _ Hp).
    by rewrite insert_id.
Qed.

Lemma lookup3_path (jj : json) (m f fp : string) :
  lookup3 jj m f fp = path jj [m; f; fp].
Proof.
  unfold lookup3. simpl.
  destruct (member jj m) as [jm|]; [|done].
  destruct (member jm f) as [jf|]; [|done].
  by destruct (member jf fp).
Qed.


Lemma catalog_shaped_null : catalog_shaped JNull.
Proof. split; [exact I|]. intros m jm. discriminate. Qed.


(** One level of [operator[]] followed by a write below it. *)
Lemma assign_cons (jj : json) (k : string) (ks : list string) (v sub : json) :
  objectish jj →
  Json.assign (default JNull (member jj k)) ks v = Ok sub →
  ∃ jj', Json.assign jj (k :: ks) v = Ok jj' ∧ objectish jj' ∧
         ∀ k', member jj' k' = if decide (k = k') then Some sub else member jj k'.
Proof.
  intros Ho Hs. destruct jj; simpl in Ho; try done; simpl in *.
  - rewrite Hs. eexists; split; [done|]. split; [exact I|].
    intros k'. simpl. case_decide; subst.
    + by rewrite lookup_singleton_eq.
    + by rewrite lookup_singleton_ne.
  - rewrite Hs. eexists; split; [done|]. split; [exact I|].
    intros k'. simpl. by rewrite lookup_insert.
Qed.

(** [j[m][f][fp] = v] on a catalog: it succeeds, keeps the shape, stores
    [v] under the key and leaves every other key alone. *)
Lemma assign3 (jj : json) (m f fp : string) (v : json) :
  catalog_shaped jj →
  ∃ jj', Json.assign jj [m; f; fp] v = Ok jj' ∧ catalog_shaped jj' ∧
    ∀ m' f' fp', lookup3 jj' m' f' fp' =
      if decide ((m, f, fp) = (m', f', fp')) then Some v
      else lookup3 jj m' f' fp'.
Proof.
  intros [Ho Hsh].
  set (jm := default JNull (member jj m)).
  assert (Hjm : objectish jm ∧ ∀ f' jf, member jm f' = Some jf → objectish jf).
  { unfold jm. destruct (member jj m) as [e|] eqn:E; simpl.
    - by apply (Hsh m).
    - split; [exact I|]. intros ? ?. discriminate. }
  destruct Hjm as [Hjm Hjf].
  set (jf := default JNull (member jm f)).
  assert (Hjfo : objectish jf).
  { unfold jf. destruct (member jm f) as [e|] eqn:E; simpl; [by eapply Hjf | exact I]. }
  destruct (assign_cons jf fp [] v v Hjfo eq_refl) as (jf' & Ef & Hof & Hmf).
  destruct (assign_cons jm f [fp] v jf' Hjm Ef) as (jm' & Em & Hom & Hmm).
  destruct (assign_cons jj m [f; fp] v jm' Ho Em) as (jj' & Ej & Hoj & Hmj).
  exists jj'. split; [done|]. split.
  - split; [done|]. intros m' e. rewrite Hmj. case_decide as Hd.
    + intros [= <-]. split; [done|]. intros f' e'. rewrite Hmm.
      case_decide; [by intros [= <-] | apply Hjf].
    + apply Hsh.
  - intros m' f' fp'. unfold lookup3 at 1. rewrite Hmj.
    destruct (decide (m = m')) as [<-|Hm].
    + rewrite Hmm. destruct (decide (f = f')) as [<-|Hf].
      * rewrite Hmf. destruct (decide (fp = fp')) as [<-|Hfp].
        -- by rewrite decide_True.
        -- rewrite decide_False by congruence.
           unfold lookup3, jf, jm.
           destruct (member jj m) as [e|]; simpl; [|done].
           destruct (member e f) as [e'|]; simpl; done.
      * rewrite decide_False by congruence.
        unfold lookup3, jm.
        destruct (member jj m) as [e|]; simpl; done.
    + rewrite decide_False by congruence. reflexivity.
Qed.

(** [static_cast<int>] keeps a value that already is an [int]. *)
Lemma to_int_small (n : Z) :
  - 2 ^ 31 ≤ n < 2 ^ 31 → to_int n = n.
Proof. intros H. unfold to_int. rewrite Z.mod_small; lia. Qed.

Lemma to_int_range (n : Z) : - 2 ^ 31 ≤ to_int n < 2 ^ 31.
Proof.
  unfold to_int.
  pose proof (Z.mod_pos_bound (n + 2 ^ 31) (2 ^ 32) ltac:(lia)). lia.
Qed.

End JsonFacts.

(* ===================================================================== *)
(** * Running the monad *)
(* ===================================================================== *)

Ltac munfold :=
  unfold subscriptJ, assignJ, mbind, M_bind, mret, M_ret, getIR, getJ, putIR,
    putJ, emit, writeFile, fail, lift in *.

Lemma state_eta (s : PassState) :
  mkState (ir s) (j s) (errs s) (written s) = s.
Proof. by destruct s. Qed.

(* ===================================================================== *)
(** * Substrings *)
(* ===================================================================== *)

Section Substrings.

Lemma substring_here (t post : string) :
  String.substring 0 (String.length t) (t +:+ post) = t.
Proof.
  induction t as [|c t IH]; simpl.
  - by destruct post.
  - by rewrite IH.
Qed.

Lemma substring_middle (pre t post : string) :
  String.substring (String.length pre) (String.length t) (pre +:+ t +:+ post) = t.
Proof.
  induction pre as [|c pre IH]; [apply (substring_here t post) | simpl; apply IH].
Qed.

Lemma substring_prefix (t : string) : ∀ s,
  String.substring 0 (String.length t) s = t → ∃ post, s = t +:+ post.
Proof.
  induction t as [|c t IH]; intros s; simpl.
  - intros _. by exists s.
  - destruct s as [|c' s]; [discriminate|].
    intros [= -> H]. destruct (IH _ H) as [post ->]. by exists post.
Qed.

Lemma substring_split (t : string) : ∀ (m : nat) (s : string),
  t ≠ EmptyString →
  String.substring m (String.length t) s = t → ∃ pre post, s = pre +:+ t +:+ post.
Proof.
  induction m as [|m IH]; intros s Ht H.
  - destruct (substring_prefix _ _ H) as [post ->]. by exists EmptyString, post.
  - destruct s as [|c s].
    + simpl in H. destruct t; [done | discriminate].
    + simpl in H. destruct (IH _ Ht H) as (pre & post & ->).
      by exists (String c pre), post.
Qed.

(** [find] of the literal is the substring test. *)
Lemma name_has_NO_PERF_spec (name : string) :
  name_has_NO_PERF name = true ↔ Spec.has_substring "NO_PERF" name.
Proof.
  unfold name_has_NO_PERF, Spec.has_substring. split.
  - destruct (String.index 0 "NO_PERF" name) as [m|] eqn:E; [|discriminate].
    intros _. apply String.index_correct1 in E.
    by apply (substring_split "NO_PERF" m).
  - intros (pre & post & ->).
    destruct (String.index 0 "NO_PERF" (pre +:+ "NO_PERF" +:+ post)) eqn:E; [done|].
    exfalso.
    apply (String.index_correct3 0 (String.length pre)) in E; [|done|lia].
    apply E. apply (substring_middle pre "NO_PERF" post).
Qed.

End Substrings.

(* ===================================================================== *)
(** * The eligibility check *)
(* ===================================================================== *)

Section Eligibility.

(** [isLoopPerforable] always returns; it touches nothing but [errs()]. *)
Lemma isLoopPerforable_run (L : Loop) (s : PassState) :
  isLoopPerforable L s =
  Ok (verdict (ir s) L,
      mkState (ir s) (j s) (errs s ++ skipDiag (ir s)) (written s)).
Proof.
  unfold verdict, skipDiag, isLoopPerforable. munfold. simpl.
  destruct (name_has_NO_PERF (getName (ir s))); simpl; [done|].
  rewrite app_nil_r, state_eta.
  destruct (isLoopSimplifyForm L); simpl; [|done].
  destruct (getCanonicalInductionVariable (ir s) L) as [PHI|]; [|done].
  destruct (findValueToChange (ir s) PHI) as [v|]; [|done].
  by destruct (isa_BinaryOperator (ir s) v).
Qed.

(** The verdict, read off the code. *)
Lemma verdict_unfold (F : Function) (L : Loop) :
  verdict F L =
  if name_has_NO_PERF (getName F) then false
  else if isLoopSimplifyForm L then
    match getCanonicalInductionVariable F L with
    | Some PHI =>
        match findValueToChange F PHI with
        | Some v => isa_BinaryOperator F v
        | None => false
        end
    | None => false
    end
  else false.
Proof.
  unfold verdict, isLoopPerforable. munfold. simpl.
  destruct (name_has_NO_PERF (getName F)); simpl; [done|].
  destruct (isLoopSimplifyForm L); simpl; [|done].
  destruct (getCanonicalInductionVariable F L) as [PHI|]; [|done].
  destruct (findValueToChange F PHI) as [v|]; [|done].
  by destruct (isa_BinaryOperator F v).
Qed.

(** The inner loop: the first incoming value equal to the user is the user
    itself. *)
Lemma find_incoming (l : list Value) (u : nat) :
  find (λ Incoming, bool_decide (Incoming = InstRef u)) l =
  if decide (InstRef u ∈ l) then Some (InstRef u) else None.
Proof.
  induction l as [|v l IH]; cbn [find].
  - destruct (decide (InstRef u ∈ [])) as [H|]; [by apply not_elem_of_nil in H | done].
  - case_bool_decide as Hv.
    + subst v. destruct (decide (InstRef u ∈ InstRef u :: l)) as [|H]; [done|].
      exfalso. apply H. left.
    + rewrite IH.
      destruct (decide (InstRef u ∈ l)), (decide (InstRef u ∈ v :: l)) as [H|H];
        try done.
      * exfalso. apply H. by right.
      * apply elem_of_cons in H as [?|?]; congruence.
Qed.

Lemma foldl_last_filter (inc : list Value) (us : list nat) : ∀ acc,
  foldl (λ ValueToChange User,
           match find (λ Incoming, bool_decide (Incoming = InstRef User)) inc with
           | Some Incoming => Some Incoming
           | None => ValueToChange
           end) acc us =
  match last (filter (λ u, InstRef u ∈ inc) us) with
  | Some u => Some (InstRef u)
  | None => acc
  end.
Proof.
  induction us as [|u us IH]; intros acc; simpl; [done|].
  rewrite IH, find_incoming, filter_cons.
  destruct (decide (InstRef u ∈ inc)); [|done].
  destruct (filter _ us) as [|u' l] eqn:E; [done|].
  rewrite last_cons_cons.
  destruct (last (u' :: l)) eqn:El; [done|].
  by apply last_None in El.
Qed.

(** The nested loops compute the updating value of the specification. *)
Lemma findValueToChange_spec (F : Function) (PHI : nat) :
  findValueToChange F PHI = Spec.updating_value F PHI.
Proof.
  unfold findValueToChange, Spec.updating_value.
  rewrite foldl_last_filter.
  by destruct (last _).
Qed.

Lemma updating_value_None (F : Function) (PHI : nat) :
  Spec.updating_value F PHI = None ↔
  ¬ ∃ v u, v ∈ incoming_values F PHI ∧ u ∈ users F (InstRef PHI) ∧ v = InstRef u.
Proof.
  unfold Spec.updating_value. rewrite fmap_None, last_None. split.
  - intros Hf (v & u & Hv & Hu & ->).
    assert (u ∈ filter (λ u, InstRef u ∈ incoming_values F PHI)
                       (users F (InstRef PHI))) as Hin
      by (apply list_elem_of_filter; done).
    rewrite Hf in Hin. by apply not_elem_of_nil in Hin.
  - intros Hn. destruct (filter _ _) as [|u l] eqn:E; [done|].
    exfalso. apply Hn.
    assert (u ∈ filter (λ u, InstRef u ∈ incoming_values F PHI)
                       (users F (InstRef PHI))) as Hin
      by (rewrite E; left).
    apply list_elem_of_filter in Hin as [? ?]. by exists (InstRef u), u.
Qed.

Lemma updating_value_Some (F : Function) (PHI : nat) (v : Value) :
  Spec.updating_value F PHI = Some v →
  ∃ u, v = InstRef u ∧ InstRef u ∈ incoming_values F PHI ∧
       u ∈ users F (InstRef PHI).
Proof.
  unfold Spec.updating_value. intros (u & Hl & ->)%fmap_Some.
  exists u. split; [done|].
  assert (u ∈ filter (λ u, InstRef u ∈ incoming_values F PHI)
                     (users F (InstRef PHI))) as Hin.
  { apply last_Some in Hl as [l' ->]. apply elem_of_app. right. left. }
  by apply list_elem_of_filter in Hin.
Qed.

(** The verdict is true exactly when none of the five conditions holds. *)
Lemma verdict_spec (F : Function) (L : Loop) :
  verdict F L = true ↔ Spec.isPerforable F L.
Proof.
  rewrite verdict_unfold. unfold Spec.isPerforable, Spec.ineligible1,
    Spec.ineligible2, Spec.ineligible3, Spec.ineligible4, Spec.ineligible5.
  rewrite <- name_has_NO_PERF_spec.
  destruct (name_has_NO_PERF (getName F)); [split; [done | tauto]|].
  destruct (isLoopSimplifyForm L); [|split; [done | tauto]].
  destruct (getCanonicalInductionVariable F L) as [PHI|]; [|split; [done | tauto]].
  rewrite findValueToChange_spec.
  destruct (Spec.updating_value F PHI) as [v|] eqn:Ev.
  - split.
    + intros Hb. repeat split; try done.
      * intros H4. apply (H4 PHI eq_refl).
        apply updating_value_Some in Ev as (u & -> & ? & ?). by exists (InstRef u), u.
      * intros H5. specialize (H5 PHI v eq_refl Ev). congruence.
    + intros (_ & _ & _ & _ & H5).
      destruct (isa_BinaryOperator F v) eqn:Eb; [done|].
      exfalso. apply H5. intros PHI' v' [= <-] Hv. congruence.
  - split; [done|]. intros (_ & _ & _ & H4 & _).
    exfalso. apply H4. intros PHI' [= <-]. by apply updating_value_None.
Qed.

End Eligibility.

(* ===================================================================== *)
(** * The canonical induction variable *)
(* ===================================================================== *)

Section CanonicalIV.

Lemma getBlock_Some (F : Function) (B : BasicBlockRef) (b : BasicBlock) :
  getBlock F B = Some b → b ∈ f_blocks F ∧ bb_name b = B.
Proof.
  unfold getBlock. intros [Hin Hb]%find_some. split.
  - by apply list_elem_of_In.
  - by apply bool_decide_eq_true in Hb.
Qed.

Lemma getIncomingAndBackEdge_Some (F : Function) (L : Loop)
  (Incoming Backedge : BasicBlockRef) :
  getIncomingAndBackEdge F L = Some (Incoming, Backedge) →
  predecessors F (getHeader L) ≡ₚ [Incoming; Backedge] ∧ Incoming ≠ Backedge ∧
  (Incoming ∉ getBlocks L) ∧ Backedge ∈ getBlocks L.
Proof.
  unfold getIncomingAndBackEdge.
  destruct (predecessors F (getHeader L)) as [|p1 [|p2 [|? ?]]]; try discriminate.
  destruct (contains L p2) eqn:E2, (contains L p1) eqn:E1; try discriminate;
    intros [= <- <-]; unfold contains in E1, E2;
    apply bool_decide_eq_true in E1 || apply bool_decide_eq_false in E1;
    apply bool_decide_eq_true in E2 || apply bool_decide_eq_false in E2;
    (split_and!; [|congruence|done|done]);
    first [reflexivity | apply Permutation_swap].
Qed.

Lemma isCanonicalPHI_true (F : Function) (PN : nat)
  (incoming : list (Value * BasicBlockRef)) (Incoming Backedge : BasicBlockRef) :
  isCanonicalPHI F PN incoming Incoming Backedge = true →
  ∃ b0 Inc ty b1,
    getIncomingValueForBlock incoming Incoming = Some (ConstantInt b0 0) ∧
    getIncomingValueForBlock incoming Backedge = Some (InstRef Inc) ∧
    f_insts F !! Inc = Some (BinaryOperator Add ty (InstRef PN) (ConstantInt b1 1)).
Proof.
  unfold isCanonicalPHI.
  destruct (getIncomingValueForBlock incoming Incoming) as [[b0 init| |]|];
    try discriminate.
  destruct (decide (init = 0)) as [->|]; [|discriminate].
  destruct (getIncomingValueForBlock incoming Backedge) as [[| Inc |]|];
    try discriminate.
  destruct (f_insts F !! Inc) as [[| opc ty op0 op1 |]|] eqn:EInc;
    try discriminate.
  destruct opc; try discriminate.
  destruct op1 as [b1 step| |]; try discriminate.
  intros [H0 H1]%andb_true_iff.
  apply bool_decide_eq_true in H0, H1. subst.
  by exists b0, Inc, ty, b1.
Qed.

Lemma firstCanonicalPHI_Some (F : Function) (Incoming Backedge : BasicBlockRef)
  (ids : list nat) (PHI : nat) :
  firstCanonicalPHI F Incoming Backedge ids = Some PHI →
  PHI ∈ ids ∧
  ∃ ty incoming, f_insts F !! PHI = Some (PHINode ty incoming) ∧
                 isCanonicalPHI F PHI incoming Incoming Backedge = true.
Proof.
  induction ids as [|PN rest IH]; simpl; [discriminate|].
  destruct (f_insts F !! PN) as [[ty incoming| |]|] eqn:E; try discriminate.
  destruct (isCanonicalPHI F PN incoming Incoming Backedge) eqn:Ec.
  - intros [= <-]. split; [left | eauto].
  - intros [Hin H]%IH. split; [by right | done].
Qed.

(** Two entries, one per edge: the incoming values are the ones found for
    the two blocks. *)
Lemma two_incoming (incoming : list (Value * BasicBlockRef))
  (Incoming Backedge : BasicBlockRef) (vi vb : Value) :
  incoming.*2 ≡ₚ [Incoming; Backedge] → Incoming ≠ Backedge →
  getIncomingValueForBlock incoming Incoming = Some vi →
  getIncomingValueForBlock incoming Backedge = Some vb →
  incoming.*1 = [vi; vb] ∨ incoming.*1 = [vb; vi].
Proof.
  intros Hp Hne.
  pose proof (Permutation_length Hp) as Hlen.
  destruct incoming as [|[v1 b1] [|[v2 b2] [|? ?]]]; try discriminate.
  simpl in Hp.
  assert (b1 ∈ [Incoming; Backedge]) as H1 by (rewrite <- Hp; left).
  assert (Incoming ∈ [b1; b2]) as H3 by (rewrite Hp; left).
  assert (Backedge ∈ [b1; b2]) as H4 by (rewrite Hp; right; left).
  unfold getIncomingValueForBlock. simpl.
  repeat (apply elem_of_cons in H1 as [H1|H1]); [| |by apply not_elem_of_nil in H1].
  - subst b1.
    repeat (apply elem_of_cons in H4 as [H4|H4]);
      [congruence| |by apply not_elem_of_nil in H4].
    subst b2. rewrite bool_decide_eq_true_2 by done.
    rewrite (bool_decide_eq_false_2 (Incoming = Backedge)) by done.
    rewrite bool_decide_eq_true_2 by done. simpl.
    intros [= <-] [= <-]. by left.
  - subst b1.
    repeat (apply elem_of_cons in H3 as [H3|H3]);
      [congruence| |by apply not_elem_of_nil in H3].
    subst b2. rewrite (bool_decide_eq_false_2 (Backedge = Incoming)) by done.
    rewrite !bool_decide_eq_true_2 by done. simpl.
    intros [= <-] [= <-]. by right.
Qed.

(** In verifier-clean IR the canonical induction variable has two incoming
    values: the constant zero, from outside the loop, and [add PHI, 1],
    along the back edge. *)
Lemma canonical_edges (F : Function) (L : Loop) (PHI : nat) :
  phi_rule F →
  getCanonicalInductionVariable F L = Some PHI →
  ∃ Incoming Backedge tyP incoming b0 Inc ty b1,
    getIncomingAndBackEdge F L = Some (Incoming, Backedge) ∧
    (Incoming ∉ getBlocks L) ∧ Backedge ∈ getBlocks L ∧
    f_insts F !! PHI = Some (PHINode tyP incoming) ∧
    getIncomingValueForBlock incoming Incoming = Some (ConstantInt b0 0) ∧
    getIncomingValueForBlock incoming Backedge = Some (InstRef Inc) ∧
    (incoming.*1 = [ConstantInt b0 0; InstRef Inc] ∨
     incoming.*1 = [InstRef Inc; ConstantInt b0 0]) ∧
    f_insts F !! Inc = Some (BinaryOperator Add ty (InstRef PHI) (ConstantInt b1 1)).
Proof.
  intros Hwf. unfold getCanonicalInductionVariable.
  destruct (getIncomingAndBackEdge F L) as [[Incoming Backedge]|] eqn:Ee;
    [|discriminate].
  destruct (getBlock F (getHeader L)) as [H|] eqn:Eh; [|discriminate].
  intros (Hin & ty & incoming & Ephi & Hc)%firstCanonicalPHI_Some.
  apply getBlock_Some in Eh as [HH Hname].
  pose proof (getIncomingAndBackEdge_Some _ _ _ _ Ee) as (Hp & Hne & Hout & Hinl).
  apply isCanonicalPHI_true in Hc as (b0 & Inc & tyI & b1 & Hvi & Hvb & EInc).
  pose proof (Hwf H PHI ty incoming HH Hin Ephi) as Hrule.
  rewrite Hname, Hp in Hrule.
  exists Incoming, Backedge, ty, incoming, b0, Inc, tyI, b1.
  split_and!; try done.
  by apply (two_incoming incoming Incoming Backedge).
Qed.

Lemma canonical_shape (F : Function) (L : Loop) (PHI : nat) :
  phi_rule F →
  getCanonicalInductionVariable F L = Some PHI →
  ∃ b0 Inc ty b1,
    (incoming_values F PHI = [ConstantInt b0 0; InstRef Inc] ∨
     incoming_values F PHI = [InstRef Inc; ConstantInt b0 0]) ∧
    f_insts F !! Inc = Some (BinaryOperator Add ty (InstRef PHI) (ConstantInt b1 1)).
Proof.
  intros Hwf Hiv.
  destruct (canonical_edges F L PHI Hwf Hiv)
    as (? & ? & ? & incoming & b0 & Inc & ty & b1 & _ & _ & _ & Ephi & _ & _ & Hinc & EInc).
  exists b0, Inc, ty, b1. split; [|done].
  unfold incoming_values. by rewrite Ephi.
Qed.

Lemma last_constant {A} (l : list A) (a : A) :
  a ∈ l → (∀ x, x ∈ l → x = a) → last l = Some a.
Proof.
  intros Hin Hall. destruct (last l) as [x|] eqn:E.
  - f_equal. apply Hall. apply last_Some in E as [l' ->].
    apply elem_of_app. right. left.
  - apply last_None in E. subst. by apply not_elem_of_nil in Hin.
Qed.

(** An instruction is among the users of each of its operands. *)
Lemma operand_user (F : Function) (i : nat) (Inst : Instruction) (V : Value) :
  f_insts F !! i = Some Inst → V ∈ operands Inst → i ∈ users F V.
Proof.
  intros Hi Hop. unfold users. apply list_elem_of_join.
  exists (uses_of V i Inst). split.
  - unfold uses_of. apply list_elem_of_fmap. exists V. split; [done|].
    by apply list_elem_of_filter.
  - by apply (elem_of_lookup_imap_2 (uses_of V)).
Qed.

(** So the nested loops of both passes find the increment. *)
Lemma canonical_findValueToChange (F : Function) (L : Loop) (PHI : nat) :
  phi_rule F →
  getCanonicalInductionVariable F L = Some PHI →
  ∃ Inc ty b1,
    findValueToChange F PHI = Some (InstRef Inc) ∧
    f_insts F !! Inc = Some (BinaryOperator Add ty (InstRef PHI) (ConstantInt b1 1)).
Proof.
  intros Hwf Hiv.
  destruct (canonical_shape F L PHI Hwf Hiv) as (b0 & Inc & ty & b1 & Hinc & EInc).
  exists Inc, ty, b1. split; [|done].
  rewrite findValueToChange_spec. unfold Spec.updating_value.
  erewrite last_constant; [done| |].
  - apply list_elem_of_filter. split.
    + destruct Hinc as [-> | ->]; [right; left | left].
    + apply (operand_user F Inc _ _ EInc). simpl. left.
  - intros u [Hu _]%list_elem_of_filter.
    destruct Hinc as [Hinc | Hinc]; rewrite Hinc in Hu;
      repeat (apply elem_of_cons in Hu as [Hu|Hu]);
      try congruence; by apply not_elem_of_nil in Hu.
Qed.

(** The updating value is the value that comes in along the back edge. *)
Lemma canonical_backedge (F : Function) (L : Loop) (PHI : nat) :
  phi_rule F →
  getCanonicalInductionVariable F L = Some PHI →
  ∃ Incoming Backedge ty incoming v,
    getIncomingAndBackEdge F L = Some (Incoming, Backedge) ∧
    Backedge ∈ getBlocks L ∧
    f_insts F !! PHI = Some (PHINode ty incoming) ∧
    getIncomingValueForBlock incoming Backedge = Some v ∧
    Spec.updating_value F PHI = Some v ∧
    isa_BinaryOperator F v = true.
Proof.
  intros Hwf Hiv.
  destruct (canonical_edges F L PHI Hwf Hiv)
    as (Incoming & Backedge & ty & incoming & b0 & Inc & tyI & b1 &
        He & _ & Hin & Ephi & _ & Hvb & _ & EInc).
  destruct (canonical_findValueToChange F L PHI Hwf Hiv)
    as (Inc' & ty' & b1' & Hf & EInc').
  exists Incoming, Backedge, ty, incoming, (InstRef Inc').
  rewrite <- findValueToChange_spec. split_and!; try done.
  - rewrite Hvb. f_equal. f_equal.
    rewrite findValueToChange_spec in Hf.
    apply updating_value_Some in Hf as (u & [= ->] & Hu & _).
    destruct (canonical_shape F L PHI Hwf Hiv) as (c0 & Inc2 & ? & ? & Hshape & EInc2).
    assert (u = Inc2) as ->.
    { destruct Hshape as [Hs|Hs]; rewrite Hs in Hu;
        repeat (apply elem_of_cons in Hu as [Hu|Hu]);
        try congruence; by apply not_elem_of_nil in Hu. }
    unfold incoming_values in Hshape. rewrite Ephi in Hshape.
    assert (InstRef Inc ∈ incoming.*1) as Hin2.
    { unfold getIncomingValueForBlock in Hvb.
      apply fmap_Some in Hvb as ([v b] & Hfind & Hv). simpl in Hv. subst v.
      apply find_some in Hfind as [Hfind _]. apply list_elem_of_In in Hfind.
      apply list_elem_of_fmap. by exists (InstRef Inc, b). }
    destruct Hshape as [Hs|Hs]; rewrite Hs in Hin2;
      repeat (apply elem_of_cons in Hin2 as [Hin2|Hin2]);
      try congruence; by apply not_elem_of_nil in Hin2.
  - unfold isa_BinaryOperator. by rewrite EInc'.
Qed.

End CanonicalIV.

(* ===================================================================== *)
(** * The rewrite pass *)
(* ===================================================================== *)

Section Rewrite.

Import LoopPerforationPass.

Lemma subscriptJ_existing (keys : list string) (s : PassState) (e : json) :
  path (j s) keys = Some e → subscriptJ keys s = Ok (e, s).
Proof.
  intros Hp. munfold. cbn beta. rewrite (subscript_existing _ _ _ Hp).
  cbn. by rewrite state_eta.
Qed.

Lemma contains_of_member (jj : json) (k : string) (e : json) :
  member jj k = Some e → Json.contains jj k = true.
Proof. intros H. apply contains_member. eauto. Qed.

(** The guard of [runOnLoop]: without an entry the loop is skipped and
    nothing changes. *)
Lemma runOnLoop_absent (L : Loop) (s : PassState) :
  tableEntry s L = None → runOnLoop L s = Ok (false, s).
Proof.
  unfold tableEntry, lookup3, runOnLoop. intros H.
  cbv beta iota delta [mbind M_bind mret M_ret getIR getJ].
  destruct (member (j s) (getParentName (ir s))) as [jm|] eqn:Em.
  - rewrite (contains_of_member _ _ _ Em). cbn [negb].
    rewrite (subscriptJ_existing [getParentName (ir s)] s jm)
      by (simpl; by rewrite Em).
    destruct (member jm (getName (ir s))) as [jf|] eqn:Ef.
    + rewrite (contains_of_member _ _ _ Ef). cbn [negb].
      rewrite (subscriptJ_existing [getParentName (ir s); getName (ir s)] s jf)
        by (simpl; by rewrite Em, Ef).
      apply contains_false_member in H. by rewrite H.
    + apply contains_false_member in Ef. by rewrite Ef.
  - apply contains_false_member in Em. by rewrite Em.
Qed.

(** With an entry the guard is passed, with [j] as it was. *)
Lemma runOnLoop_present (L : Loop) (s : PassState) (leaf : json) :
  tableEntry s L = Some leaf →
  runOnLoop L s =
  match getCanonicalInductionVariable (ir s) L with
  | None => Fault NullDereference
  | Some PHI =>
      match findValueToChange (ir s) PHI with
      | Some (InstRef Increment) =>
          match f_insts (ir s) !! Increment with
          | Some (BinaryOperator opc ty op0 op1) =>
              perforateOperands L PHI Increment 0 [op0; op1] s
          | _ => Fault NullDereference
          end
      | _ => Fault NullDereference
      end
  end.
Proof.
  unfold tableEntry, lookup3, runOnLoop. intros H.
  cbv beta iota delta [mbind M_bind mret M_ret getIR getJ].
  destruct (member (j s) (getParentName (ir s))) as [jm|] eqn:Em; [|done].
  rewrite (contains_of_member _ _ _ Em). cbn [negb].
  rewrite (subscriptJ_existing [getParentName (ir s)] s jm)
    by (simpl; by rewrite Em).
  destruct (member jm (getName (ir s))) as [jf|] eqn:Ef; [|done].
  rewrite (contains_of_member _ _ _ Ef). cbn [negb].
  rewrite (subscriptJ_existing [getParentName (ir s); getName (ir s)] s jf)
    by (simpl; by rewrite Em, Ef).
  rewrite (contains_of_member _ _ _ H). cbn [negb].
  destruct (getCanonicalInductionVariable (ir s) L) as [PHI|]; [|done].
  destruct (findValueToChange (ir s) PHI) as [[| Inc |]|]; try done.
  by destruct (f_insts (ir s) !! Inc) as [[| | ]|].
Qed.

(** A table with an entry is not empty, and subscripting it down to the
    entry returns the entry. *)
Lemma tableEntry_rate (L : Loop) (s : PassState) (leaf : json) :
  tableEntry s L = Some leaf →
  Json.empty (j s) = false ∧
  subscriptJ [getParentName (ir s); getName (ir s); StringifyLoop (ir s) L] s
  = Ok (leaf, s).
Proof.
  intros H. split.
  - unfold tableEntry, lookup3 in H.
    destruct (member (j s) (getParentName (ir s))) eqn:Em; [|done].
    by eapply member_not_empty.
  - apply subscriptJ_existing. by rewrite <- lookup3_path.
Qed.

(** The scan over the operands: the operands that are the PHI node are
    passed over, the first other one is overwritten and the scan stops. *)
Lemma perforateOperands_first (L : Loop) (PHI Inc : nat) (pre : list Value) :
  ∀ (idx : nat) (Op : Value) (rest : list Value) (s : PassState)
    (leaf : json) (bits : N) (Inst : Instruction),
  Forall (λ v, v = InstRef PHI) pre → Op ≠ InstRef PHI →
  tableEntry s L = Some leaf →
  getType (ir s) Op = Some (IntegerTy bits) →
  f_insts (ir s) !! Inc = Some Inst →
  perforateOperands L PHI Inc idx (pre ++ Op :: rest) s =
  match get_int leaf with
  | Ok rate =>
      let NewInc := ConstantInt bits (rate mod 2 ^ Z.of_N bits) in
      Ok (true,
          mkState (replaceInstruction (ir s) Inc
                     (setOperand Inst (idx + length pre) NewInc))
                  (j s) (errs s ++ [Changing Op NewInc]) (written s))
  | Fault e => Fault e
  end.
Proof.
  induction pre as [|v pre IH]; intros idx Op rest s leaf bits Inst Hpre Hop He Hty Hi.
  - cbn [app perforateOperands length]. rewrite decide_False by done.
    destruct (tableEntry_rate L s leaf He) as [Hne Hsub].
    cbv beta iota delta [mbind M_bind mret M_ret getIR getJ].
    rewrite Hne. cbn [negb]. rewrite Hsub.
    unfold lift at 1. destruct (get_int leaf) as [rate|e]; [|done].
    rewrite Hty. cbv beta iota delta [mret M_ret ConstantInt_get lift emit].
    cbn [ir j errs written]. rewrite Hi.
    unfold putIR. cbn [ir j errs written].
    by rewrite Nat.add_0_r.
  - apply Forall_cons in Hpre as [-> Hpre].
    cbn [app perforateOperands length]. rewrite decide_True by done.
    rewrite (IH (S idx) Op rest s leaf bits Inst) by done.
    by replace (S idx + length pre)%nat with (idx + S (length pre))%nat by lia.
Qed.

(** The scan falls off the end only when every operand is the PHI node. *)
Lemma perforateOperands_all_phi (L : Loop) (PHI Inc : nat) (ops : list Value) :
  ∀ (idx : nat) (s : PassState),
  Forall (λ v, v = InstRef PHI) ops →
  perforateOperands L PHI Inc idx ops s = Ok (false, s).
Proof.
  induction ops as [|v ops IH]; intros idx s Hall; [done|].
  apply Forall_cons in Hall as [-> Hall].
  cbn [perforateOperands]. rewrite decide_True by done. by apply IH.
Qed.

(** The rewrite of a loop with a canonical induction variable in
    verifier-clean IR. *)
Lemma runOnLoop_canonical (L : Loop) (s : PassState) (leaf : json) (PHI : nat) :
  phi_rule (ir s) →
  getCanonicalInductionVariable (ir s) L = Some PHI →
  tableEntry s L = Some leaf →
  ∃ Inc ty bits,
    findValueToChange (ir s) PHI = Some (InstRef Inc) ∧
    f_insts (ir s) !! Inc =
      Some (BinaryOperator Add ty (InstRef PHI) (ConstantInt bits 1)) ∧
    runOnLoop L s =
    match get_int leaf with
    | Ok rate =>
        let NewInc := ConstantInt bits (rate mod 2 ^ Z.of_N bits) in
        Ok (true,
            mkState (replaceInstruction (ir s) Inc
                       (BinaryOperator Add ty (InstRef PHI) NewInc))
                    (j s) (errs s ++ [Changing (ConstantInt bits 1) NewInc])
                    (written s))
    | Fault e => Fault e
    end.
Proof.
  intros Hwf Hiv He.
  destruct (canonical_findValueToChange _ _ _ Hwf Hiv) as (Inc & ty & bits & Hv & Hi).
  exists Inc, ty, bits. split; [done|]. split; [done|].
  rewrite (runOnLoop_present L s leaf He), Hiv, Hv, Hi.
  pose proof (perforateOperands_first L PHI Inc [InstRef PHI] 0
                (ConstantInt bits 1) [] s leaf bits _ ltac:(by constructor)
                ltac:(done) He eq_refl Hi) as Hrun.
  cbn [app length Nat.add setOperand] in Hrun. by rewrite Hrun.
Qed.

End Rewrite.

(* ===================================================================== *)
(** * The discovery pass *)
(* ===================================================================== *)

Section Discovery.

Import LoopCountPass.

(** Induction over a loop and, below it, over its sub-loops. *)
Lemma Loop_nested_ind (P : Loop → Prop) :
  (∀ h bs sf subs, Forall P subs → P (mkLoop h bs sf subs)) → ∀ L, P L.
Proof.
  intros H. fix IH 1. intros [h bs sf subs]. apply H.
  induction subs as [|S subs IHs]; constructor; [apply IH | apply IHs].
Qed.

Lemma allLoops_eq (L : Loop) :
  allLoops L = L :: (getSubLoops L ≫= allLoops).
Proof.
  destruct L as [h bs sf subs]. reflexivity.
Qed.

Lemma handleLoop_eq (L : Loop) (n : Z) :
  handleLoop L n =
  (perforable ← isLoopPerforable L;
   n' ← ((if (perforable : bool) then
            F ← getIR;
            _ ← assignJ [getParentName F; getName F; StringifyLoop F L] placeholder;
            mret (to_int (n + 1))
          else mret n) : M Z);
   forLoops (getSubLoops L) n').
Proof. by destruct L. Qed.

Lemma skipDiag_skip (F : Function) : Forall isSkipDiag (skipDiag F).
Proof.
  unfold skipDiag. destruct (name_has_NO_PERF (getName F)); [|constructor].
  constructor; [by eexists | constructor].
Qed.

Lemma discovered_refl (s : PassState) (E : list (Function * Loop)) :
  records E (j s) → discovered s s E.
Proof.
  intros H. unfold discovered. split_and!; [done | done | | done].
  exists []. by rewrite app_nil_r.
Qed.

Lemma discovered_trans (s s' s'' : PassState) (E' E'' : list (Function * Loop)) :
  discovered s s' E' → discovered s' s'' E'' → discovered s s'' E''.
Proof.
  intros (Hi & Hw & (ds & He & Hd) & _) (Hi' & Hw' & (ds' & He' & Hd') & Hr).
  unfold discovered. split_and!; [congruence | congruence | | done].
  exists (ds ++ ds'). split.
  - by rewrite He', He, app_assoc.
  - by apply Forall_app.
Qed.

Lemma records_nil : records [] JNull.
Proof.
  split; [apply catalog_shaped_null|]. intros m f fp leaf. split; [done|].
  intros (_ & F & L & Hin & _). by apply not_elem_of_nil in Hin.
Qed.

(** A loop that is not perforable adds nothing to what is recorded. *)
Lemma records_skip (E : list (Function * Loop)) (F : Function) (L : Loop)
  (jj : json) :
  records E jj → verdict F L = false → records (E ++ [(F, L)]) jj.
Proof.
  intros [Hs Hr] Hv. split; [done|]. intros m f fp leaf. rewrite Hr.
  split; intros (-> & F' & L' & Hin & Hv' & Hk); (split; [done|]);
    exists F', L'; (split; [|done]).
  - apply elem_of_app. by left.
  - apply elem_of_app in Hin as [Hin|Hin]; [done|].
    apply list_elem_of_singleton in Hin. congruence.
Qed.

(** A perforable loop gets its placeholder. *)
Lemma records_add (E : list (Function * Loop)) (F : Function) (L : Loop)
  (jj : json) :
  records E jj → verdict F L = true →
  ∃ jj', Json.assign jj [getParentName F; getName F; StringifyLoop F L] placeholder
         = Ok jj' ∧ records (E ++ [(F, L)]) jj'.
Proof.
  intros [Hs Hr] Hv.
  destruct (assign3 jj (getParentName F) (getName F) (StringifyLoop F L)
              placeholder Hs) as (jj' & Ha & Hs' & Hl).
  exists jj'. split; [done|]. split; [done|].
  intros m f fp leaf. rewrite Hl. case_decide as Hk.
  - split.
    + intros [= <-]. split; [done|]. exists F, L. split; [|done].
      apply elem_of_app. right. left.
    + by intros (-> & _).
  - rewrite Hr.
    split; intros (-> & F' & L' & Hin & Hv' & Hk'); (split; [done|]);
      exists F', L'; (split; [|done]).
    + apply elem_of_app. by left.
    + apply elem_of_app in Hin as [Hin|Hin]; [done|].
      apply list_elem_of_singleton in Hin. injection Hin as -> ->.
      unfold catalogKey in Hk'. congruence.
Qed.

Lemma forLoops_spec (Ls : list Loop) :
  Forall handleLoop_post Ls →
  ∀ (n : Z) (s : PassState) (E : list (Function * Loop)),
    records E (j s) →
    ∃ n' s', forLoops Ls n s = Ok (n', s') ∧
             discovered s s' (E ++ ((λ L', (ir s, L')) <$> (Ls ≫= allLoops))).
Proof.
  induction 1 as [|L Ls HL _ IH]; intros n s E Hr.
  - exists n, s. split; [done|]. cbn. rewrite app_nil_r. by apply discovered_refl.
  - destruct (HL n s E Hr) as (n1 & s1 & Hrun & Hd1).
    pose proof Hd1 as (Hi1 & _ & _ & Hr1).
    destruct (IH n1 s1 _ Hr1) as (n2 & s2 & Hrun2 & Hd2).
    exists n2, s2. split.
    + cbn [forLoops]. unfold mbind, M_bind. by rewrite Hrun.
    + cbn [mbind list_bind]. rewrite fmap_app, app_assoc.
      rewrite Hi1 in Hd2. by eapply discovered_trans.
Qed.

Lemma handleLoop_spec (L : Loop) : handleLoop_post L.
Proof.
  induction L as [h bs sf subs IH] using Loop_nested_ind.
  set (L := mkLoop h bs sf subs). intros n s E Hr.
  rewrite handleLoop_eq. unfold mbind at 1, M_bind at 1.
  rewrite isLoopPerforable_run.
  set (s1 := mkState (ir s) (j s) (errs s ++ skipDiag (ir s)) (written s)).
  assert (∃ n1 s2, ((if verdict (ir s) L then
                       F ← getIR;
                       _ ← assignJ [getParentName F; getName F; StringifyLoop F L]
                                   placeholder;
                       mret (to_int (n + 1))
                     else mret n) : M Z) s1 = Ok (n1, s2) ∧
                   discovered s s2 (E ++ [(ir s, L)])) as (n1 & s2 & Hstep & Hd).
  { destruct (verdict (ir s) L) eqn:Hv.
    - destruct (records_add E (ir s) L (j s) Hr Hv) as (jj' & Ha & Hr').
      exists (to_int (n + 1)), (mkState (ir s) jj' (errs s1) (written s)).
      split.
      + subst s1. munfold. cbn [ir j errs written]. by rewrite Ha.
      + unfold discovered. split_and!; [done | done | | done].
        eexists. split; [done | apply skipDiag_skip].
    - exists n, s1. split; [done|].
      unfold discovered. split_and!; [done | done | | by apply records_skip].
      eexists. split; [done | apply skipDiag_skip]. }
  unfold mbind at 1, M_bind at 1. rewrite Hstep.
  pose proof Hd as (Hi & _ & _ & Hr2).
  destruct (forLoops_spec subs IH n1 s2 _ Hr2) as (n2 & s3 & Hrun & Hd3).
  exists n2, s3. split; [done|].
  rewrite allLoops_eq. cbn [getSubLoops fmap list_fmap].
  rewrite Hi in Hd3.
  rewrite <- app_assoc in Hd3. by eapply discovered_trans.
Qed.

(** [runOnFunction] returns false, leaves the function and the files alone
    and records the perforable loops of the whole forest. *)
Lemma runOnFunction_spec (s : PassState) (E : list (Function * Loop)) :
  records E (j s) →
  ∃ s', runOnFunction s = Ok (false, s') ∧
        discovered s s' (E ++ ((λ L, (ir s, L)) <$> loopForest (ir s))).
Proof.
  intros Hr. unfold runOnFunction, loopForest.
  destruct (forLoops_spec (getLoopInfo (ir s))
              ltac:(apply Forall_forall; intros; apply handleLoop_spec)
              0 s E Hr) as (n' & s' & Hrun & Hd).
  exists s'. split; [|done].
  munfold. cbn beta. by rewrite Hrun.
Qed.

Lemma runOnFunctions_spec (Fs : list Function) :
  ∀ (s : PassState) (E : list (Function * Loop)),
    records E (j s) →
    ∃ s', Host.runOnFunctions Fs s = Ok ((λ F, (false, F)) <$> Fs, s') ∧
          written s' = written s ∧
          (∃ ds, errs s' = errs s ++ ds ∧ Forall isSkipDiag ds) ∧
          records (E ++ forestEntries Fs) (j s').
Proof.
  induction Fs as [|F Fs IH]; intros s E Hr.
  - exists s. split; [done|]. split; [done|]. split.
    + exists []. by rewrite app_nil_r.
    + unfold forestEntries. cbn. by rewrite app_nil_r.
  - set (s0 := mkState F (j s) (errs s) (written s)).
    destruct (runOnFunction_spec s0 E Hr) as (s1 & Hrun & Hi & Hw & (ds & He & Hds) & Hr1).
    destruct (IH s1 _ Hr1) as (s2 & Hrun2 & Hw2 & (ds2 & He2 & Hds2) & Hr2).
    exists s2. split; [|split; [|split]].
    + cbn [Host.runOnFunctions]. munfold. cbn beta iota. fold s0.
      rewrite Hrun. cbn beta iota. rewrite Hrun2. cbn. by rewrite Hi.
    + by rewrite Hw2, Hw.
    + exists (ds ++ ds2). split; [|by apply Forall_app].
      by rewrite He2, He, app_assoc.
    + unfold forestEntries in *. cbn [mbind list_bind].
      by rewrite app_assoc.
Qed.

(** The whole life of the pass object: every call returns false, every
    function is handed back as it came, one file is written, and it holds
    the catalog of the perforable loops. *)
Lemma runLoopCountPass_spec (InfoFilename : string) (Fs : list Function)
  (s : PassState) :
  ∃ s', Host.runLoopCountPass InfoFilename Fs s
        = Ok ((λ F, (false, F)) <$> Fs, s') ∧
        written s' = written s ++ [(InfoFilename, j s')] ∧
        (∃ ds, errs s' = errs s ++ ds ∧ Forall isSkipDiag ds) ∧
        records (forestEntries Fs) (j s').
Proof.
  unfold Host.runLoopCountPass.
  destruct (runOnFunctions_spec Fs (LoopCountPass.constructor s) [] records_nil)
    as (s1 & Hrun & Hw & He & Hr).
  exists (mkState (ir s1) (j s1) (errs s1) (written s1 ++ [(InfoFilename, j s1)])).
  split; [|split; [|split]]; cbn [j written errs]; try done.
  - unfold mbind at 1, M_bind at 1. rewrite Hrun.
    unfold destructor. munfold. done.
  - by rewrite Hw.
Qed.

End Discovery.

(* ===================================================================== *)
(** * Small facts the properties lean on *)
(* ===================================================================== *)

Section Misc.

Lemma getSExtValue_fits (bits : N) (R : Z) :
  - 2 ^ (Z.of_N bits - 1) ≤ R < 2 ^ (Z.of_N bits - 1) →
  getSExtValue bits (R mod 2 ^ Z.of_N bits) = R.
Proof.
  intros HR. unfold getSExtValue.
  destruct (decide (Z.of_N bits = 0)) as [Hz|Hz].
  - rewrite Hz in HR. change (2 ^ (0 - 1)) with 0 in HR. lia.
  - assert (2 ^ Z.of_N bits = 2 * 2 ^ (Z.of_N bits - 1)) as Hp.
    { rewrite <- Z.pow_succ_r by lia. f_equal. lia. }
    assert (0 < 2 ^ (Z.of_N bits - 1)) by (apply Z.pow_pos_nonneg; lia).
    destruct (decide (0 ≤ R)).
    + rewrite Z.mod_small by lia. rewrite decide_True by lia. done.
    + assert (R mod 2 ^ Z.of_N bits = R + 2 ^ Z.of_N bits) as ->.
      { symmetry. apply (Z.mod_unique _ _ (-1)); lia. }
      rewrite decide_False by lia. lia.
Qed.

Lemma verdict_NO_PERF (F : Function) (L : Loop) :
  name_has_NO_PERF (getName F) = true → verdict F L = false.
Proof. intros H. by rewrite verdict_unfold, H. Qed.

Lemma elem_of_forestEntries (Fs : list Function) (F : Function) (L : Loop) :
  (F, L) ∈ forestEntries Fs ↔ F ∈ Fs ∧ L ∈ loopForest F.
Proof.
  unfold forestEntries. rewrite list_elem_of_bind. split.
  - intros (F' & HL & HF). apply list_elem_of_fmap in HL as (L' & [= -> ->] & HL).
    done.
  - intros [HF HL]. exists F. split; [|done].
    apply list_elem_of_fmap. by exists L.
Qed.

Lemma allLoops_self (L : Loop) : L ∈ allLoops L.
Proof. rewrite allLoops_eq. left. Qed.

(** The forest below a loop holds the sub-loops of each of its loops. *)
Lemma allLoops_sub (T : Loop) :
  ∀ L L', L ∈ allLoops T → L' ∈ getSubLoops L → L' ∈ allLoops T.
Proof.
  induction T as [h bs sf subs IH] using Loop_nested_ind.
  intros L L'. rewrite allLoops_eq. cbn [getSubLoops].
  intros [-> | HL]%elem_of_cons HL'.
  - right. apply list_elem_of_bind. exists L'. split; [apply allLoops_self | done].
  - right. apply list_elem_of_bind in HL as (S & HL & HS).
    apply list_elem_of_bind. exists S. split; [|done].
    rewrite Forall_forall in IH. by apply (IH S HS L L').
Qed.

Lemma loopForest_sub (F : Function) (L L' : Loop) :
  L ∈ loopForest F → L' ∈ getSubLoops L → L' ∈ loopForest F.
Proof.
  unfold loopForest. intros (T & HL & HT)%list_elem_of_bind HL'.
  apply list_elem_of_bind. exists T. split; [|done]. by eapply allLoops_sub.
Qed.

Lemma foldl_ext_in {A B} (f g : A → B → A) (l : list B) :
  (∀ a x, x ∈ l → f a x = g a x) → ∀ a, foldl f a l = foldl g a l.
Proof.
  induction l as [|x l IH]; intros H a; [done|].
  cbn [foldl]. rewrite H by left. apply IH. intros a' y Hy. apply H. by right.
Qed.

End Misc.

(* ===================================================================== *)
(** * The example, run *)
(* ===================================================================== *)

Section ExampleRuns.

Example fingerprint_foo :
  StringifyLoop (Example.foo "foo") Example.loop = Example.fingerprint.
Proof. reflexivity. Qed.

Example foo_is_perforable :
  isLoopPerforable Example.loop (Example.world "foo")
  = Ok (true, Example.world "foo").
Proof. reflexivity. Qed.

Example foo_NO_PERF_is_skipped :
  isLoopPerforable Example.loop (Example.world "foo_NO_PERF")
  = Ok (false,
        mkState (Example.foo "foo_NO_PERF") JNull
                [SkippingLoopInFunction "foo_NO_PERF"] []).
Proof. reflexivity. Qed.

(** The discovery pass writes [{"mod": {"foo": {fingerprint: null}}}]. *)
Example discovery_of_foo :
  Host.runLoopCountPass InfoFilename_default [Example.foo "foo"] (Example.world "foo")
  = Ok ([(false, Example.foo "foo")],
        mkState (Example.foo "foo") (Example.rates "foo" placeholder) []
                [(InfoFilename_default, Example.rates "foo" placeholder)]).
Proof. by vm_compute. Qed.

(** A loop that is not in simplified form is not recorded; the loop nested
    in it is. *)
Example discovery_below_a_rejected_loop :
  Host.runLoopCountPass InfoFilename_default
    [mkFunction "foo" "mod" (Example.insts_w 32) Example.blocks
       [mkLoop "outer" ["outer"; "for.cond"; "for.body"; "for.inc"]%string false
               [Example.loop]]]
    (Example.world "foo")
  = Ok ([(false,
          mkFunction "foo" "mod" (Example.insts_w 32) Example.blocks
            [mkLoop "outer" ["outer"; "for.cond"; "for.body"; "for.inc"]%string
                    false [Example.loop]])],
        mkState
          (mkFunction "foo" "mod" (Example.insts_w 32) Example.blocks
             [mkLoop "outer" ["outer"; "for.cond"; "for.body"; "for.inc"]%string
                     false [Example.loop]])
          (Example.rates "foo" placeholder) []
          [(InfoFilename_default, Example.rates "foo" placeholder)]).
Proof. by vm_compute. Qed.

(** With the rate 4 the step of the loop goes from 1 to 4. *)
Example rewrite_of_foo :
  LoopPerforationPass.runOnLoop Example.loop (Example.with_rate "foo" (JInt 4))
  = Ok (true,
        mkState (Example.foo_perforated "foo") (Example.rates "foo" (JInt 4))
                [Changing (ConstantInt 32 1) (ConstantInt 32 4)] []).
Proof. by vm_compute. Qed.

(** The catalog as the discovery pass wrote it is not a rate table: the
    conversion of the placeholder to [int] throws. *)
Example rewrite_with_the_catalog :
  LoopPerforationPass.runOnLoop Example.loop (Example.with_rate "foo" placeholder)
  = Fault JsonTypeError.
Proof. by vm_compute. Qed.

(** After the rewrite the loop has no canonical induction variable left:
    a second run of the pass dereferences a null pointer. *)
Example rewrite_twice :
  LoopPerforationPass.runOnLoop Example.loop
    (mkState (Example.foo_perforated "foo") (Example.rates "foo" (JInt 4)) [] [])
  = Fault NullDereference.
Proof. by vm_compute. Qed.

End ExampleRuns.

(* ===================================================================== *)
(** * The running example is verifier-clean *)
(* ===================================================================== *)

Lemma Example_phi_rule (w : N) (name : string) : phi_rule (Example.foo_w w name).
Proof.
  intros b PN ty incoming Hb HPN Hphi.
  cbn [Example.foo_w f_blocks Example.blocks] in Hb.
  repeat (apply elem_of_cons in Hb as [-> | Hb]);
    [| | | | | by apply not_elem_of_nil in Hb];
    cbn [bb_insts] in HPN;
    repeat (apply elem_of_cons in HPN as [-> | HPN]);
    try (by apply not_elem_of_nil in HPN);
    cbn in Hphi; try discriminate.
  injection Hphi as <- <-. reflexivity.
Defined.

(* ===================================================================== *)
(** * The properties *)
(* ===================================================================== *)

Import LoopPerforationPass.

(** C1, as the code has it.  A rewrite pass whose table is empty (no rates
    file, or a file holding an empty value) has no entry for any loop: the
    lookup at the head of [runOnLoop] fails, the loop is declared unchanged
    and nothing is touched.  The default rate of 1 sits behind that lookup
    and is never used. *)
Theorem C1_empty_table_skips (L : Loop) (s : PassState) :
  Json.empty (j s) = true →
  tableEntry s L = None ∧ runOnLoop L s = Ok (false, s).
Proof.
  intros He.
  assert (tableEntry s L = None) as Hn.
  { unfold tableEntry, lookup3. by rewrite (empty_member _ _ He). }
  split; [done | by apply runOnLoop_absent].
Qed.

Lemma C1_empty_table_skips_witness :
  Json.empty (j (Example.no_rates "foo")) = true ∧
  tableEntry (Example.no_rates "foo") Example.loop = None ∧
  runOnLoop Example.loop (Example.no_rates "foo")
  = Ok (false, Example.no_rates "foo").
Proof.
  split; [reflexivity|].
  apply (C1_empty_table_skips Example.loop (Example.no_rates "foo")).
  reflexivity.
Defined.

(** C1 as the specification words it fails: the loop of [foo] is
    perforable, so the discovery pass catalogs it, and without a rates file
    the rewrite pass skips it instead of reporting a change. *)
Lemma C1_counterexample :
  verdict (Example.foo "foo") Example.loop = true ∧
  Json.empty (j (Example.no_rates "foo")) = true ∧
  runOnLoop Example.loop (Example.no_rates "foo")
  = Ok (false, Example.no_rates "foo") ∧
  ¬ ∃ s', runOnLoop Example.loop (Example.no_rates "foo") = Ok (true, s').
Proof.
  assert (runOnLoop Example.loop (Example.no_rates "foo")
          = Ok (false, Example.no_rates "foo")) as Hrun by (by vm_compute).
  split_and!; [by vm_compute | done | done |].
  intros [s' Hs']. rewrite Hrun in Hs'. discriminate.
Qed.

(** C5.  A loop whose key is not in the rate table is skipped: [runOnLoop]
    returns false and the function, the table, the diagnostics and the
    files are what they were. *)
Theorem C5_absent_entry_is_skipped (L : Loop) (s : PassState) :
  tableEntry s L = None → runOnLoop L s = Ok (false, s).
Proof. apply runOnLoop_absent. Qed.

Lemma C5_absent_entry_is_skipped_witness :
  tableEntry Example.rates_for_bar Example.loop = None ∧
  runOnLoop Example.loop Example.rates_for_bar = Ok (false, Example.rates_for_bar).
Proof.
  split; [by vm_compute|].
  apply (C5_absent_entry_is_skipped Example.loop Example.rates_for_bar).
  by vm_compute.
Defined.

(** C2, as the code has it.  For a perforable loop of verifier-clean IR
    whose key holds the integer [R], [runOnLoop] returns true once, writes
    one diagnostic and leaves everything as it was except the increment
    [add PHI, 1], whose step operand (the one operand that is not the
    induction variable) becomes a constant of the operand's own integer
    type.  The constant holds [R] cut to the 32 bits of the pass's [int]
    and then to the width of the type: it is [R] whenever [R] fits in
    both. *)
Theorem C2_rate_replaces_step (L : Loop) (s : PassState) (R : Z) :
  phi_rule (ir s) →
  verdict (ir s) L = true →
  tableEntry s L = Some (JInt R) →
  ∃ PHI Inc ty bits,
    getCanonicalInductionVariable (ir s) L = Some PHI ∧
    f_insts (ir s) !! Inc =
      Some (BinaryOperator Add ty (InstRef PHI) (ConstantInt bits 1)) ∧
    runOnLoop L s =
      Ok (true,
          mkState
            (replaceInstruction (ir s) Inc
               (BinaryOperator Add ty (InstRef PHI)
                  (ConstantInt bits (to_int R mod 2 ^ Z.of_N bits))))
            (j s)
            (errs s ++ [Changing (ConstantInt bits 1)
                          (ConstantInt bits (to_int R mod 2 ^ Z.of_N bits))])
            (written s)) ∧
    (- 2 ^ 31 ≤ R < 2 ^ 31 →
     - 2 ^ (Z.of_N bits - 1) ≤ R < 2 ^ (Z.of_N bits - 1) →
     getSExtValue bits (to_int R mod 2 ^ Z.of_N bits) = R).
Proof.
  intros Hwf Hv He.
  rewrite verdict_unfold in Hv.
  destruct (name_has_NO_PERF _); [done|].
  destruct (isLoopSimplifyForm L); [|done].
  destruct (getCanonicalInductionVariable (ir s) L) as [PHI|] eqn:Hiv; [|done].
  destruct (runOnLoop_canonical L s _ PHI Hwf Hiv He)
    as (Inc & ty & bits & _ & Hi & Hrun).
  exists PHI, Inc, ty, bits. split_and!; [done | done | done |].
  intros H32 Hbits. rewrite to_int_small by done. by apply getSExtValue_fits.
Qed.

Lemma C2_rate_replaces_step_witness :
  ∃ PHI Inc ty bits,
    getCanonicalInductionVariable (ir (Example.with_rate "foo" (JInt 4))) Example.loop
    = Some PHI ∧
    f_insts (ir (Example.with_rate "foo" (JInt 4))) !! Inc =
      Some (BinaryOperator Add ty (InstRef PHI) (ConstantInt bits 1)) ∧
    runOnLoop Example.loop (Example.with_rate "foo" (JInt 4)) =
      Ok (true,
          mkState
            (replaceInstruction (ir (Example.with_rate "foo" (JInt 4))) Inc
               (BinaryOperator Add ty (InstRef PHI)
                  (ConstantInt bits (to_int 4 mod 2 ^ Z.of_N bits))))
            (j (Example.with_rate "foo" (JInt 4)))
            (errs (Example.with_rate "foo" (JInt 4))
               ++ [Changing (ConstantInt bits 1)
                     (ConstantInt bits (to_int 4 mod 2 ^ Z.of_N bits))])
            (written (Example.with_rate "foo" (JInt 4)))) ∧
    (- 2 ^ 31 ≤ 4 < 2 ^ 31 →
     - 2 ^ (Z.of_N bits - 1) ≤ 4 < 2 ^ (Z.of_N bits - 1) →
     getSExtValue bits (to_int 4 mod 2 ^ Z.of_N bits) = 4).
Proof.
  apply (C2_rate_replaces_step Example.loop (Example.with_rate "foo" (JInt 4)) 4).
  - apply (Example_phi_rule 32).
  - by vm_compute.
  - by vm_compute.
Defined.

(** C2 as the specification words it fails: with the rate 4294967300 in the
    table the step of [foo]'s loop becomes the constant 4, and with the
    rate 300 the step of a loop that counts in [i8] becomes the constant
    44. *)
Lemma C2_counterexample :
  phi_rule (ir (Example.with_rate "foo" (JInt 4294967300))) ∧
  verdict (ir (Example.with_rate "foo" (JInt 4294967300))) Example.loop = true ∧
  tableEntry (Example.with_rate "foo" (JInt 4294967300)) Example.loop
  = Some (JInt 4294967300) ∧
  runOnLoop Example.loop (Example.with_rate "foo" (JInt 4294967300))
  = Ok (true,
        mkState (Example.foo_perforated "foo")
                (Example.rates "foo" (JInt 4294967300))
                [Changing (ConstantInt 32 1) (ConstantInt 32 4)] []) ∧
  f_insts (Example.foo_perforated "foo") !! 3%nat
  = Some (BinaryOperator Add (IntegerTy 32) (InstRef 0) (ConstantInt 32 4)) ∧
  getSExtValue 32 4 ≠ 4294967300 ∧
  phi_rule (ir (Example.narrow_with_rate (JInt 300))) ∧
  verdict (ir (Example.narrow_with_rate (JInt 300))) Example.loop = true ∧
  tableEntry (Example.narrow_with_rate (JInt 300)) Example.loop = Some (JInt 300) ∧
  runOnLoop Example.loop (Example.narrow_with_rate (JInt 300))
  = Ok (true,
        mkState (replaceInstruction (Example.foo_w 8 "foo") 3
                   (BinaryOperator Add (IntegerTy 8) (InstRef 0) (ConstantInt 8 44)))
                (Example.rates "foo" (JInt 300))
                [Changing (ConstantInt 8 1) (ConstantInt 8 44)] []) ∧
  getSExtValue 8 44 ≠ 300.
Proof.
  split_and!;
    first [apply (Example_phi_rule 32) | apply (Example_phi_rule 8)
          | by vm_compute | done].
Qed.

(** C3, as the code has it.  In a function whose name contains NO_PERF no
    loop is perforable, so a discovery run leaves nothing under that
    function's name in its catalog; the rewrite pass does not look at the
    name, and skips the loops of the function whenever its table has no
    entry under that name. *)
Theorem C3_NO_PERF_excluded (F : Function) (L : Loop) :
  Spec.has_substring "NO_PERF" (getName F) →
  verdict F L = false ∧
  (∀ InfoFilename Fs s results s',
     Host.runLoopCountPass InfoFilename Fs s = Ok (results, s') →
     ∀ m fp, lookup3 (j s') m (getName F) fp = None) ∧
  (∀ s, ir s = F →
     (∀ m fp, lookup3 (j s) m (getName F) fp = None) →
     runOnLoop L s = Ok (false, s)).
Proof.
  intros Hn%name_has_NO_PERF_spec. split_and!.
  - by apply verdict_NO_PERF.
  - intros file Fs s results s' Hrun m fp.
    destruct (runLoopCountPass_spec file Fs s) as (s1 & Hrun1 & _ & _ & _ & Hr).
    rewrite Hrun in Hrun1. injection Hrun1 as _ <-.
    destruct (lookup3 (j s') m (getName F) fp) as [leaf|] eqn:E; [|done].
    apply Hr in E as (_ & F' & L' & _ & Hv & [= _ Hname _]).
    rewrite verdict_NO_PERF in Hv; [done | by rewrite Hname].
  - intros s <- Habs. apply runOnLoop_absent. apply Habs.
Qed.

Lemma C3_NO_PERF_excluded_witness :
  Spec.has_substring "NO_PERF" (getName (Example.foo "foo_NO_PERF")) ∧
  verdict (Example.foo "foo_NO_PERF") Example.loop = false ∧
  (∀ InfoFilename Fs s results s',
     Host.runLoopCountPass InfoFilename Fs s = Ok (results, s') →
     ∀ m fp, lookup3 (j s') m (getName (Example.foo "foo_NO_PERF")) fp = None) ∧
  (∀ s, ir s = Example.foo "foo_NO_PERF" →
     (∀ m fp, lookup3 (j s) m (getName (Example.foo "foo_NO_PERF")) fp = None) →
     runOnLoop Example.loop s = Ok (false, s)).
Proof.
  assert (Spec.has_substring "NO_PERF" (getName (Example.foo "foo_NO_PERF"))) as H.
  { exists "foo_"%string, ""%string. reflexivity. }
  split; [exact H|].
  exact (C3_NO_PERF_excluded (Example.foo "foo_NO_PERF") Example.loop H).
Defined.

(** C3 as the specification words it fails: a rate table that names a loop
    of [foo_NO_PERF] makes the rewrite pass change that loop. *)
Lemma C3_counterexample :
  Spec.has_substring "NO_PERF" (getName (Example.foo "foo_NO_PERF")) ∧
  runOnLoop Example.loop (Example.with_rate "foo_NO_PERF" (JInt 4))
  = Ok (true,
        mkState (Example.foo_perforated "foo_NO_PERF")
                (Example.rates "foo_NO_PERF" (JInt 4))
                [Changing (ConstantInt 32 1) (ConstantInt 32 4)] []) ∧
  Example.foo_perforated "foo_NO_PERF" ≠ Example.foo "foo_NO_PERF".
Proof.
  split_and!.
  - exists "foo_"%string, ""%string. reflexivity.
  - by vm_compute.
  - intros [=].
Qed.

(** C4.  A discovery pass object run over any functions returns normally,
    and the catalog it writes holds, under module name, function name and
    fingerprint, a placeholder for exactly the loops of the loop forests
    for which [isLoopPerforable] returns true.  The forest holds the
    sub-loops of every loop, perforable or not. *)
Theorem C4_catalog_complete (InfoFilename : string) (Fs : list Function)
  (s : PassState) :
  ∃ s',
    Host.runLoopCountPass InfoFilename Fs s = Ok ((λ F, (false, F)) <$> Fs, s') ∧
    written s' = written s ++ [(InfoFilename, j s')] ∧
    (∀ m f fp leaf,
       lookup3 (j s') m f fp = Some leaf ↔
       leaf = placeholder ∧
       ∃ F L, F ∈ Fs ∧ L ∈ loopForest F ∧
              getParentName F = m ∧ getName F = f ∧ StringifyLoop F L = fp ∧
              verdict F L = true) ∧
    (∀ F L L', L ∈ loopForest F → L' ∈ getSubLoops L → L' ∈ loopForest F) ∧
    (∀ F L, L ∈ getLoopInfo F → L ∈ loopForest F).
Proof.
  destruct (runLoopCountPass_spec InfoFilename Fs s) as (s' & Hrun & Hw & _ & _ & Hr).
  exists s'. split_and!; [done | done | | apply loopForest_sub |].
  - intros m f fp leaf. rewrite Hr. split.
    + intros (-> & F & L & [HF HL]%elem_of_forestEntries & Hv & [= <- <- <-]).
      split; [done|]. by exists F, L.
    + intros (-> & F & L & HF & HL & <- & <- & <- & Hv).
      split; [done|]. exists F, L. split; [|done].
      by apply elem_of_forestEntries.
  - intros F L HL. unfold loopForest. apply list_elem_of_bind.
    exists L. split; [apply allLoops_self | done].
Qed.

(** C6.  [isLoopPerforable] always returns, and it returns true exactly
    when none of the five conditions holds.  The name is looked at first:
    the diagnostic is written when, and only when, the function's name
    contains NO_PERF, whatever the loop looks like; the simplified form
    comes next and the induction variable after it.  In verifier-clean IR
    the updating value of a perforable loop is the value that reaches the
    induction variable along the back edge, from a block of the loop. *)
Theorem C6_eligibility_conditions (L : Loop) (s : PassState) :
  ∃ b s',
    isLoopPerforable L s = Ok (b, s') ∧
    (b = true ↔
     ¬ Spec.ineligible1 (ir s) ∧ ¬ Spec.ineligible2 L ∧
     ¬ Spec.ineligible3 (ir s) L ∧ ¬ Spec.ineligible4 (ir s) L ∧
     ¬ Spec.ineligible5 (ir s) L) ∧
    (Spec.ineligible1 (ir s) →
     b = false ∧ errs s' = errs s ++ [SkippingLoopInFunction (getName (ir s))]) ∧
    (¬ Spec.ineligible1 (ir s) → errs s' = errs s) ∧
    (¬ Spec.ineligible1 (ir s) → Spec.ineligible2 L → b = false) ∧
    (¬ Spec.ineligible1 (ir s) → ¬ Spec.ineligible2 L →
     Spec.ineligible3 (ir s) L → b = false) ∧
    (phi_rule (ir s) → b = true →
     ∃ PHI Incoming Backedge ty incoming v,
       getCanonicalInductionVariable (ir s) L = Some PHI ∧
       getIncomingAndBackEdge (ir s) L = Some (Incoming, Backedge) ∧
       Backedge ∈ getBlocks L ∧
       f_insts (ir s) !! PHI = Some (PHINode ty incoming) ∧
       getIncomingValueForBlock incoming Backedge = Some v ∧
       Spec.updating_value (ir s) PHI = Some v).
Proof.
  exists (verdict (ir s) L),
    (mkState (ir s) (j s) (errs s ++ skipDiag (ir s)) (written s)).
  split; [apply isLoopPerforable_run|]. split; [apply verdict_spec|].
  unfold Spec.ineligible1, Spec.ineligible2, Spec.ineligible3, skipDiag.
  cbn [errs]. rewrite verdict_unfold, <- name_has_NO_PERF_spec.
  destruct (name_has_NO_PERF (getName (ir s))).
  - split_and!; try done.
  - split_and!; try done.
    + intros _. by rewrite app_nil_r.
    + intros _ ->. done.
    + intros _ _ ->. by destruct (isLoopSimplifyForm L).
    + intros Hwf Hb. destruct (isLoopSimplifyForm L); [|done].
      destruct (getCanonicalInductionVariable (ir s) L) as [PHI|] eqn:Hiv; [|done].
      destruct (canonical_backedge _ _ _ Hwf Hiv)
        as (Incoming & Backedge & ty & incoming & v & ? & ? & ? & ? & ? & _).
      by exists PHI, Incoming, Backedge, ty, incoming, v.
Qed.

(** C7.  The fingerprint depends on the loop's blocks in their order, on
    which of them is the header, and on which of them are latches and
    exiting blocks, and on nothing else: two loops that agree on these,
    in the same or in different states of the IR, have the same
    fingerprint. *)
Theorem C7_fingerprint_deterministic (F F' : Function) (L L' : Loop) :
  getBlocks L = getBlocks L' →
  getHeader L = getHeader L' →
  (∀ BB, BB ∈ getBlocks L →
         isLoopLatch F L BB = isLoopLatch F' L' BB ∧
         isLoopExiting F L BB = isLoopExiting F' L' BB) →
  StringifyLoop F L = StringifyLoop F' L'.
Proof.
  intros Hb Hh Hroles. unfold StringifyLoop. rewrite <- Hb.
  apply foldl_ext_in. intros LoopStream [i BB] Hin. f_equal.
  apply elem_of_lookup_imap in Hin as (i' & BB' & [= -> ->] & Hl).
  apply list_elem_of_lookup_2 in Hl.
  destruct (Hroles BB' Hl) as [Hlatch Hexit].
  unfold stringifyBlock. by rewrite Hh, Hlatch, Hexit.
Qed.

Lemma C7_fingerprint_deterministic_witness :
  getBlocks Example.loop
  = getBlocks (mkLoop "for.cond" ["for.cond"; "for.body"; "for.inc"]%string false []) ∧
  StringifyLoop (Example.foo "foo") Example.loop
  = StringifyLoop (Example.foo_perforated "foo")
      (mkLoop "for.cond" ["for.cond"; "for.body"; "for.inc"]%string false []).
Proof.
  split; [reflexivity|].
  apply (C7_fingerprint_deterministic (Example.foo "foo")
           (Example.foo_perforated "foo") Example.loop
           (mkLoop "for.cond" ["for.cond"; "for.body"; "for.inc"]%string false [])).
  - reflexivity.
  - reflexivity.
  - intros BB HBB. cbn [getBlocks Example.loop] in HBB.
    repeat (apply elem_of_cons in HBB as [-> | HBB]);
      [| | | by apply not_elem_of_nil in HBB]; by vm_compute.
Defined.

(** C10.  For a perforable loop of verifier-clean IR whose key is in the
    table, the rewrite pass finds the induction variable, finds its
    increment, which is the binary operation [add PHI, 1] and so has an
    operand that is not the induction variable, and returns from inside
    the scan over the operands: it dereferences no null pointer and never
    arrives at the [return false] below the scan. *)
Theorem C10_rederivation_succeeds (L : Loop) (s : PassState) (leaf : json) :
  phi_rule (ir s) →
  verdict (ir s) L = true →
  tableEntry s L = Some leaf →
  ∃ PHI Increment ty bits,
    getCanonicalInductionVariable (ir s) L = Some PHI ∧
    findValueToChange (ir s) PHI = Some (InstRef Increment) ∧
    f_insts (ir s) !! Increment =
      Some (BinaryOperator Add ty (InstRef PHI) (ConstantInt bits 1)) ∧
    ConstantInt bits 1 ≠ InstRef PHI ∧
    runOnLoop L s ≠ Fault NullDereference ∧
    (∀ s', runOnLoop L s ≠ Ok (false, s')) ∧
    ((∃ s', runOnLoop L s = Ok (true, s')) ∨ runOnLoop L s = Fault JsonTypeError).
Proof.
  intros Hwf Hv He.
  rewrite verdict_unfold in Hv.
  destruct (name_has_NO_PERF _); [done|].
  destruct (isLoopSimplifyForm L); [|done].
  destruct (getCanonicalInductionVariable (ir s) L) as [PHI|] eqn:Hiv; [|done].
  destruct (runOnLoop_canonical L s _ PHI Hwf Hiv He)
    as (Inc & ty & bits & Hf & Hi & Hrun).
  exists PHI, Inc, ty, bits. rewrite Hrun.
  split_and!; try done; destruct leaf; cbn; try done; eauto.
Qed.

Lemma C10_rederivation_succeeds_witness :
  ∃ PHI Increment ty bits,
    getCanonicalInductionVariable (ir (Example.with_rate "foo" (JInt 4))) Example.loop
    = Some PHI ∧
    findValueToChange (ir (Example.with_rate "foo" (JInt 4))) PHI
    = Some (InstRef Increment) ∧
    f_insts (ir (Example.with_rate "foo" (JInt 4))) !! Increment =
      Some (BinaryOperator Add ty (InstRef PHI) (ConstantInt bits 1)) ∧
    ConstantInt bits 1 ≠ InstRef PHI ∧
    runOnLoop Example.loop (Example.with_rate "foo" (JInt 4))
    ≠ Fault NullDereference ∧
    (∀ s', runOnLoop Example.loop (Example.with_rate "foo" (JInt 4))
           ≠ Ok (false, s')) ∧
    ((∃ s', runOnLoop Example.loop (Example.with_rate "foo" (JInt 4))
            = Ok (true, s')) ∨
     runOnLoop Example.loop (Example.with_rate "foo" (JInt 4)) = Fault JsonTypeError).
Proof.
  apply (C10_rederivation_succeeds Example.loop
           (Example.with_rate "foo" (JInt 4)) (JInt 4)).
  - apply (Example_phi_rule 32).
  - by vm_compute.
  - by vm_compute.
Defined.

(* ===================================================================== *)
(** * Further properties of the rewrite pass *)
(* ===================================================================== *)

Section RewriteEffect.

(** Every way out of the scan over the operands, for a loop that has its
    entry in the table. *)
Lemma perforateOperands_effect (L : Loop) (PHI Inc : nat) (leaf : json)
  (ops : list Value) :
  ∀ (idx : nat) (s s' : PassState) (b : bool),
    tableEntry s L = Some leaf →
    perforateOperands L PHI Inc idx ops s = Ok (b, s') →
    (b = false ∧ s' = s) ∨
    (b = true ∧
     ∃ k Op bits rate Inst,
       ops !! k = Some Op ∧ Op ≠ InstRef PHI ∧
       (∀ k', (k' < k)%nat → ops !! k' = Some (InstRef PHI)) ∧
       get_int leaf = Ok rate ∧
       getType (ir s) Op = Some (IntegerTy bits) ∧
       f_insts (ir s) !! Inc = Some Inst ∧
       s' = mkState
              (replaceInstruction (ir s) Inc
                 (setOperand Inst (idx + k)
                    (ConstantInt bits (rate mod 2 ^ Z.of_N bits))))
              (j s)
              (errs s ++ [Changing Op (ConstantInt bits (rate mod 2 ^ Z.of_N bits))])
              (written s)).
Proof.
  induction ops as [|Op ops IH]; intros idx s s' b He Hrun.
  - cbn in Hrun. injection Hrun as <- <-. by left.
  - cbn [perforateOperands] in Hrun.
    destruct (decide (Op = InstRef PHI)) as [->|Hne].
    + destruct (IH (S idx) s s' b He Hrun) as [?|(-> & k & Op & bits & rate & Inst & Hk & Hop & Hpre & Hr & Hty & Hi & ->)];
        [by left|].
      right. split; [done|].
      exists (S k), Op, bits, rate, Inst. split_and!; try done.
      * intros [|k'] Hlt; [done|]. cbn. apply Hpre. lia.
      * by replace (idx + S k)%nat with (S idx + k)%nat by lia.
    + right.
      destruct (tableEntry_rate L s leaf He) as [Hnem Hsub].
      revert Hrun.
      cbv beta iota delta [mbind M_bind mret M_ret getIR getJ].
      rewrite Hnem. cbn [negb]. rewrite Hsub.
      unfold lift at 1. destruct (get_int leaf) as [rate|e] eqn:Hr; [|done].
      destruct (getType (ir s) Op) as [[bits|]|] eqn:Hty; [| done | done].
      cbv beta iota delta [mret M_ret ConstantInt_get lift emit].
      cbn [ir j errs written].
      destruct (f_insts (ir s) !! Inc) as [Inst|] eqn:Hi; [|done].
      unfold putIR. cbn [ir j errs written].
      intros [= <- <-]. split; [done|].
      exists 0%nat, Op, bits, rate, Inst. split_and!; try done.
      * intros k' Hlt. lia.
      * by rewrite Nat.add_0_r.
Qed.

(** Every way [runOnLoop] returns: with false and the state it was given,
    or with true and one operand replaced. *)
Lemma runOnLoop_effect (L : Loop) (s s' : PassState) (b : bool) :
  runOnLoop L s = Ok (b, s') →
  (b = false ∧ s' = s) ∨ (b = true ∧ oneOperandReplaced s s').
Proof.
  intros Hrun.
  destruct (tableEntry s L) as [leaf|] eqn:He.
  - rewrite (runOnLoop_present L s leaf He) in Hrun.
    destruct (getCanonicalInductionVariable (ir s) L) as [PHI|]; [|done].
    destruct (findValueToChange (ir s) PHI) as [[| Inc |]|]; try done.
    destruct (f_insts (ir s) !! Inc) as [[| opc ty op0 op1 |]|] eqn:Hi; try done.
    destruct (perforateOperands_effect L PHI Inc leaf _ _ _ _ _ He Hrun)
      as [?|(-> & k & Op & bits & rate & Inst & Hk & _ & _ & _ & Hty & Hi' & ->)];
      [by left|].
    right. split; [done|].
    rewrite Hi in Hi'. injection Hi' as <-.
    by exists Inc, opc, ty, op0, op1, k, Op, bits, (rate mod 2 ^ Z.of_N bits).
  - rewrite (runOnLoop_absent L s He) in Hrun. injection Hrun as <- <-. by left.
Qed.

(** The function keeps its names, its blocks and its loops through a
    replaced instruction. *)
Lemma StringifyLoop_replaceInstruction (F : Function) (id : nat)
  (Inst : Instruction) (L : Loop) :
  StringifyLoop (replaceInstruction F id Inst) L = StringifyLoop F L.
Proof. reflexivity. Qed.

Lemma replaceInstruction_same (F : Function) (id : nat) (Inst : Instruction) :
  f_insts F !! id = Some Inst → replaceInstruction F id Inst = F.
Proof.
  intros H. unfold replaceInstruction. rewrite list_insert_id by done.
  by destruct F.
Qed.

End RewriteEffect.

(** X1.  When [runOnLoop] returns false the function, the table, the
    diagnostics and the files are exactly what they were: this covers the
    loop without an entry and the return below the scan alike. *)
Theorem X1_false_means_untouched (L : Loop) (s s' : PassState) :
  runOnLoop L s = Ok (false, s') → s' = s.
Proof.
  intros Hrun. by destruct (runOnLoop_effect L s s' false Hrun) as [[_ ?]|[? _]].
Qed.

Lemma X1_false_means_untouched_witness :
  runOnLoop Example.loop Example.rates_for_bar = Ok (false, Example.rates_for_bar) ∧
  Example.rates_for_bar = Example.rates_for_bar.
Proof.
  assert (runOnLoop Example.loop Example.rates_for_bar
          = Ok (false, Example.rates_for_bar)) as H by (by vm_compute).
  split; [exact H|].
  exact (X1_false_means_untouched Example.loop Example.rates_for_bar
           Example.rates_for_bar H).
Defined.

(** X2.  When [runOnLoop] returns true it has overwritten one operand of
    one binary operation with an integer constant of that operand's type
    and written one line to [errs()]; the table, the files, every other
    instruction and the control flow are what they were. *)
Theorem X2_true_means_one_operand (L : Loop) (s s' : PassState) :
  runOnLoop L s = Ok (true, s') →
  oneOperandReplaced s s' ∧
  j s' = j s ∧ written s' = written s ∧
  f_blocks (ir s') = f_blocks (ir s) ∧ getLoopInfo (ir s') = getLoopInfo (ir s) ∧
  length (f_insts (ir s')) = length (f_insts (ir s)) ∧
  ∃ Inc, ∀ k, k ≠ Inc → f_insts (ir s') !! k = f_insts (ir s) !! k.
Proof.
  intros Hrun.
  destruct (runOnLoop_effect L s s' true Hrun) as [[? _]|[_ Hone]]; [done|].
  split; [done|].
  destruct Hone as (Inc & opc & ty & op0 & op1 & idx & Op & bits & val & _ & _ & _ & ->).
  cbn [ir j written replaceInstruction f_blocks getLoopInfo f_insts].
  split_and!; try done.
  - apply length_insert.
  - exists Inc. intros k Hk. by apply list_lookup_insert_ne.
Qed.

Lemma X2_true_means_one_operand_witness :
  oneOperandReplaced (Example.with_rate "foo" (JInt 4))
    (mkState (Example.foo_perforated "foo") (Example.rates "foo" (JInt 4))
       [Changing (ConstantInt 32 1) (ConstantInt 32 4)] []) ∧
  j (mkState (Example.foo_perforated "foo") (Example.rates "foo" (JInt 4))
       [Changing (ConstantInt 32 1) (ConstantInt 32 4)] [])
  = j (Example.with_rate "foo" (JInt 4)) ∧
  written (mkState (Example.foo_perforated "foo") (Example.rates "foo" (JInt 4))
       [Changing (ConstantInt 32 1) (ConstantInt 32 4)] [])
  = written (Example.with_rate "foo" (JInt 4)) ∧
  f_blocks (Example.foo_perforated "foo") = f_blocks (Example.foo "foo") ∧
  getLoopInfo (Example.foo_perforated "foo") = getLoopInfo (Example.foo "foo") ∧
  length (f_insts (Example.foo_perforated "foo"))
  = length (f_insts (Example.foo "foo")) ∧
  ∃ Inc, ∀ k, k ≠ Inc →
    f_insts (Example.foo_perforated "foo") !! k = f_insts (Example.foo "foo") !! k.
Proof.
  apply (X2_true_means_one_operand Example.loop (Example.with_rate "foo" (JInt 4))).
  by vm_compute.
Defined.

(** X3.  A rewrite does not move any key of the table: after [runOnLoop],
    whatever it returned, every loop has the fingerprint and the table
    entry it had before. *)
Theorem X3_rewrite_keeps_the_keys (L : Loop) (s s' : PassState) (b : bool) :
  runOnLoop L s = Ok (b, s') →
  ∀ L', StringifyLoop (ir s') L' = StringifyLoop (ir s) L' ∧
        tableEntry s' L' = tableEntry s L'.
Proof.
  intros Hrun L'.
  destruct (runOnLoop_effect L s s' b Hrun)
    as [[_ ->]|[_ (Inc & opc & ty & op0 & op1 & idx & Op & bits & val & _ & _ & _ & ->)]];
    done.
Qed.

Lemma X3_rewrite_keeps_the_keys_witness :
  StringifyLoop
    (ir (mkState (Example.foo_perforated "foo") (Example.rates "foo" (JInt 4))
           [Changing (ConstantInt 32 1) (ConstantInt 32 4)] [])) Example.loop
  = StringifyLoop (ir (Example.with_rate "foo" (JInt 4))) Example.loop ∧
  tableEntry
    (mkState (Example.foo_perforated "foo") (Example.rates "foo" (JInt 4))
       [Changing (ConstantInt 32 1) (ConstantInt 32 4)] []) Example.loop
  = tableEntry (Example.with_rate "foo" (JInt 4)) Example.loop.
Proof.
  apply (X3_rewrite_keeps_the_keys Example.loop
           (Example.with_rate "foo" (JInt 4)) _ true).
  by vm_compute.
Defined.

(** X4.  A rewrite keeps the IR verifier-clean: the PHI nodes and the edges
    between the blocks are not touched, so the PHI rule holds after
    [runOnLoop] when it held before. *)
Theorem X4_rewrite_keeps_phi_rule (L : Loop) (s s' : PassState) (b : bool) :
  phi_rule (ir s) → runOnLoop L s = Ok (b, s') → phi_rule (ir s').
Proof.
  intros Hwf Hrun.
  destruct (runOnLoop_effect L s s' b Hrun)
    as [[_ ->]|[_ (Inc & opc & ty & op0 & op1 & idx & Op & bits & val & Hi & _ & _ & ->)]];
    [done|].
  intros blk PN tyP incoming Hb HPN Hphi. cbn [ir] in *.
  apply (Hwf blk PN tyP incoming Hb HPN).
  cbn [replaceInstruction f_insts] in Hphi.
  destruct (decide (PN = Inc)) as [->|Hne].
  - rewrite list_lookup_insert_eq in Hphi by (by eapply lookup_lt_Some).
    by destruct idx as [|[|?]].
  - by rewrite list_lookup_insert_ne in Hphi.
Qed.

Lemma X4_rewrite_keeps_phi_rule_witness :
  phi_rule (Example.foo_perforated "foo").
Proof.
  apply (X4_rewrite_keeps_phi_rule Example.loop (Example.with_rate "foo" (JInt 4))
           (mkState (Example.foo_perforated "foo") (Example.rates "foo" (JInt 4))
              [Changing (ConstantInt 32 1) (ConstantInt 32 4)] []) true).
  - apply (Example_phi_rule 32).
  - by vm_compute.
Defined.

Lemma Example_perforated_phi_rule (name : string) :
  phi_rule (Example.foo_perforated name).
Proof.
  intros b PN ty incoming Hb HPN Hphi.
  cbn [Example.foo_perforated replaceInstruction Example.foo Example.foo_w
       f_blocks Example.blocks] in Hb.
  repeat (apply elem_of_cons in Hb as [-> | Hb]);
    [| | | | | by apply not_elem_of_nil in Hb];
    cbn [bb_insts] in HPN;
    repeat (apply elem_of_cons in HPN as [-> | HPN]);
    try (by apply not_elem_of_nil in HPN);
    cbn in Hphi; try discriminate.
  injection Hphi as <- <-. reflexivity.
Defined.

(** X5.  In verifier-clean IR, for a loop that has an entry in the table,
    [runOnLoop] dereferences a null pointer exactly when the loop has no
    canonical induction variable: the entry alone takes the pass past its
    guard, and the induction variable is used without a test. *)
Theorem X5_null_without_induction_variable (L : Loop) (s : PassState)
  (leaf : json) :
  phi_rule (ir s) →
  tableEntry s L = Some leaf →
  (runOnLoop L s = Fault NullDereference ↔
   getCanonicalInductionVariable (ir s) L = None).
Proof.
  intros Hwf He. split.
  - intros Hrun.
    destruct (getCanonicalInductionVariable (ir s) L) as [PHI|] eqn:Hiv; [|done].
    destruct (runOnLoop_canonical L s leaf PHI Hwf Hiv He)
      as (Inc & ty & bits & _ & _ & Hrun').
    rewrite Hrun in Hrun'. by destruct leaf.
  - intros Hiv. by rewrite (runOnLoop_present L s leaf He), Hiv.
Qed.

Lemma X5_null_without_induction_variable_witness :
  runOnLoop Example.loop
    (mkState (Example.foo_perforated "foo") (Example.rates "foo" (JInt 4)) [] [])
  = Fault NullDereference ↔
  getCanonicalInductionVariable
    (ir (mkState (Example.foo_perforated "foo") (Example.rates "foo" (JInt 4)) [] []))
    Example.loop = None.
Proof.
  apply (X5_null_without_induction_variable Example.loop
           (mkState (Example.foo_perforated "foo") (Example.rates "foo" (JInt 4)) [] [])
           (JInt 4)).
  - apply Example_perforated_phi_rule.
  - by vm_compute.
Defined.

(** X6.  The rate 1 is the identity on the IR, and still counts as a
    change: for a perforable loop of verifier-clean IR whose entry is 1,
    [runOnLoop] returns true and writes its line to [errs()], and, the
    step of the increment having a type of one bit at least, the function
    is the one it was. *)
Theorem X6_rate_one_is_identity (L : Loop) (s : PassState) :
  phi_rule (ir s) →
  verdict (ir s) L = true →
  tableEntry s L = Some (JInt 1) →
  ∃ PHI Inc ty bits s',
    f_insts (ir s) !! Inc =
      Some (BinaryOperator Add ty (InstRef PHI) (ConstantInt bits 1)) ∧
    runOnLoop L s = Ok (true, s') ∧
    j s' = j s ∧ written s' = written s ∧
    (bits ≠ 0%N →
     ir s' = ir s ∧
     errs s' = errs s ++ [Changing (ConstantInt bits 1) (ConstantInt bits 1)]).
Proof.
  intros Hwf Hv He.
  rewrite verdict_unfold in Hv.
  destruct (name_has_NO_PERF _); [done|].
  destruct (isLoopSimplifyForm L); [|done].
  destruct (getCanonicalInductionVariable (ir s) L) as [PHI|] eqn:Hiv; [|done].
  destruct (runOnLoop_canonical L s _ PHI Hwf Hiv He)
    as (Inc & ty & bits & _ & Hi & Hrun).
  cbn [get_int] in Hrun. exists PHI, Inc, ty, bits. eexists.
  split; [exact Hi|]. split; [exact Hrun|].
  cbn [ir j errs written]. split_and!; try done.
  intros Hbits.
  assert (to_int 1 mod 2 ^ Z.of_N bits = 1) as ->.
  { rewrite to_int_small by lia. apply Z.mod_small. split; [lia|].
    apply (Z.pow_gt_1 2 (Z.of_N bits)); lia. }
  split; [by apply replaceInstruction_same | done].
Qed.

Lemma X6_rate_one_is_identity_witness :
  ∃ PHI Inc ty bits s',
    f_insts (ir (Example.with_rate "foo" (JInt 1))) !! Inc =
      Some (BinaryOperator Add ty (InstRef PHI) (ConstantInt bits 1)) ∧
    runOnLoop Example.loop (Example.with_rate "foo" (JInt 1)) = Ok (true, s') ∧
    j s' = j (Example.with_rate "foo" (JInt 1)) ∧
    written s' = written (Example.with_rate "foo" (JInt 1)) ∧
    (bits ≠ 0%N →
     ir s' = ir (Example.with_rate "foo" (JInt 1)) ∧
     errs s' = errs (Example.with_rate "foo" (JInt 1))
               ++ [Changing (ConstantInt bits 1) (ConstantInt bits 1)]).
Proof.
  apply (X6_rate_one_is_identity Example.loop (Example.with_rate "foo" (JInt 1))).
  - apply (Example_phi_rule 32).
  - by vm_compute.
  - by vm_compute.
Defined.

(** X7.  An entry that is neither a number nor a boolean stops the pass
    with nlohmann's type error: for a loop of verifier-clean IR with a
    canonical induction variable, [runOnLoop] throws before it touches the
    increment when the entry is null, a string, an array or an object. *)
Theorem X7_entry_must_be_a_number (L : Loop) (s : PassState) (leaf : json)
  (PHI : nat) :
  phi_rule (ir s) →
  getCanonicalInductionVariable (ir s) L = Some PHI →
  tableEntry s L = Some leaf →
  (∀ n, leaf ≠ JInt n) → (∀ b, leaf ≠ JBool b) →
  runOnLoop L s = Fault JsonTypeError.
Proof.
  intros Hwf Hiv He Hn Hb.
  destruct (runOnLoop_canonical L s leaf PHI Hwf Hiv He) as (? & ? & ? & _ & _ & ->).
  destruct leaf; try done; [by destruct (Hb b) | by destruct (Hn n)].
Qed.

Lemma X7_entry_must_be_a_number_witness :
  runOnLoop Example.loop (Example.with_rate "foo" (JString "fast"))
  = Fault JsonTypeError.
Proof.
  apply (X7_entry_must_be_a_number Example.loop
           (Example.with_rate "foo" (JString "fast")) (JString "fast") 0%nat).
  - apply (Example_phi_rule 32).
  - by vm_compute.
  - by vm_compute.
  - intros n. discriminate.
  - intros b. discriminate.
Defined.

(** X8.  The catalog of a discovery run is no rate table.  A rewrite pass
    that holds the catalog the discovery pass wrote throws the type error
    at every perforable loop of the functions the catalog was made from
    (in verifier-clean IR): the placeholder is not a number. *)
Theorem X8_catalog_is_no_rate_table (InfoFilename : string) (Fs : list Function)
  (s0 s1 : PassState) (results : list (bool * Function))
  (F : Function) (L : Loop) (errs0 : list Diag) (written0 : list (string * json)) :
  Host.runLoopCountPass InfoFilename Fs s0 = Ok (results, s1) →
  F ∈ Fs → L ∈ loopForest F → verdict F L = true → phi_rule F →
  runOnLoop L (mkState F (j s1) errs0 written0) = Fault JsonTypeError.
Proof.
  intros Hrun HF HL Hv Hwf.
  destruct (runLoopCountPass_spec InfoFilename Fs s0) as (s1' & Hrun' & _ & _ & _ & Hr).
  rewrite Hrun in Hrun'. injection Hrun' as _ <-.
  assert (tableEntry (mkState F (j s1) errs0 written0) L = Some placeholder) as He.
  { unfold tableEntry. cbn [ir j]. apply Hr. split; [done|].
    exists F, L. split_and!; try done. by apply elem_of_forestEntries. }
  rewrite verdict_unfold in Hv.
  destruct (name_has_NO_PERF _); [done|].
  destruct (isLoopSimplifyForm L); [|done].
  destruct (getCanonicalInductionVariable F L) as [PHI|] eqn:Hiv; [|done].
  destruct (runOnLoop_canonical L (mkState F (j s1) errs0 written0) _ PHI Hwf Hiv He)
    as (? & ? & ? & _ & _ & ->).
  done.
Qed.

Lemma X8_catalog_is_no_rate_table_witness :
  runOnLoop Example.loop
    (mkState (Example.foo "foo") (Example.rates "foo" placeholder) [] [])
  = Fault JsonTypeError.
Proof.
  apply (X8_catalog_is_no_rate_table InfoFilename_default [Example.foo "foo"]
           (Example.world "foo")
           (mkState (Example.foo "foo") (Example.rates "foo" placeholder) []
              [(InfoFilename_default, Example.rates "foo" placeholder)])
           [(false, Example.foo "foo")] (Example.foo "foo") Example.loop [] []).
  - by vm_compute.
  - left.
  - left.
  - by vm_compute.
  - apply (Example_phi_rule 32).
Defined.

(** X9.  In verifier-clean IR the last two tests of [isLoopPerforable]
    never reject a loop: a loop is perforable exactly when the name of its
    function does not contain NO_PERF, it is in simplified form and it has
    a canonical induction variable. *)
Theorem X9_three_tests_decide (F : Function) (L : Loop) :
  phi_rule F →
  verdict F L =
  negb (name_has_NO_PERF (getName F)) && isLoopSimplifyForm L &&
  bool_decide (is_Some (getCanonicalInductionVariable F L)).
Proof.
  intros Hwf. rewrite verdict_unfold.
  destruct (name_has_NO_PERF (getName F)); [done|].
  destruct (isLoopSimplifyForm L); [|done]. cbn [negb andb].
  destruct (getCanonicalInductionVariable F L) as [PHI|] eqn:Hiv.
  - destruct (canonical_findValueToChange F L PHI Hwf Hiv) as (Inc & ty & b1 & -> & Hi).
    unfold isa_BinaryOperator. rewrite Hi.
    symmetry. apply bool_decide_eq_true. by eexists.
  - symmetry. apply bool_decide_eq_false. by intros [? ?].
Qed.

Lemma X9_three_tests_decide_witness :
  verdict (Example.foo "foo") Example.loop =
  negb (name_has_NO_PERF (getName (Example.foo "foo")))
  && isLoopSimplifyForm Example.loop
  && bool_decide (is_Some (getCanonicalInductionVariable (Example.foo "foo")
                             Example.loop)).
Proof.
  apply (X9_three_tests_decide (Example.foo "foo") Example.loop).
  apply (Example_phi_rule 32).
Defined.

(* ===================================================================== *)
(** * Further properties of the discovery pass *)
(* ===================================================================== *)

Section DiscoveryExact.

Import LoopCountPass.

Lemma forLoops_exact (Ls : list Loop) :
  Forall handleLoop_exact Ls →
  ∀ (n : Z) (s : PassState) (E : list (Function * Loop)),
    records E (j s) →
    ∃ n' s', forLoops Ls n s = Ok (n', s') ∧
             ir s' = ir s ∧ written s' = written s ∧
             errs s' = errs s ++ ((Ls ≫= allLoops) ≫= λ _, skipDiag (ir s)) ∧
             n' = foldl (bump (ir s)) n (Ls ≫= allLoops) ∧
             records (E ++ ((λ L', (ir s, L')) <$> (Ls ≫= allLoops))) (j s') ∧
             (Forall (λ L', verdict (ir s) L' = false) (Ls ≫= allLoops) →
              j s' = j s).
Proof.
  induction 1 as [|L Ls HL _ IH]; intros n s E Hr.
  - exists n, s. cbn. rewrite !app_nil_r. by split_and!.
  - destruct (HL n s E Hr) as (n1 & s1 & Hrun & Hi1 & Hw1 & He1 & Hn1 & Hr1 & Hj1).
    destruct (IH n1 s1 _ Hr1) as (n2 & s2 & Hrun2 & Hi2 & Hw2 & He2 & Hn2 & Hr2 & Hj2).
    rewrite Hi1 in He2, Hn2, Hr2, Hj2.
    exists n2, s2. cbn [mbind list_bind]. split_and!.
    + cbn [forLoops]. unfold mbind, M_bind. by rewrite Hrun.
    + congruence.
    + congruence.
    + change (list_bind ?f ?l) with (l ≫= f). rewrite He2, He1.
      by rewrite bind_app, app_assoc.
    + change (list_bind ?f ?l) with (l ≫= f).
      by rewrite foldl_app, <- Hn1.
    + change (list_bind ?f ?l) with (l ≫= f).
      by rewrite fmap_app, app_assoc.
    + change (list_bind ?f ?l) with (l ≫= f).
      intros [H1 H2]%Forall_app. rewrite Hj2, Hj1; done.
Qed.

Lemma handleLoop_exact_all (L : Loop) : handleLoop_exact L.
Proof.
  induction L as [h bs sf subs IH] using Loop_nested_ind.
  set (L := mkLoop h bs sf subs). intros n s E Hr.
  rewrite handleLoop_eq. unfold mbind at 1, M_bind at 1.
  rewrite isLoopPerforable_run.
  set (s1 := mkState (ir s) (j s) (errs s ++ skipDiag (ir s)) (written s)).
  assert (∃ s2, ((if verdict (ir s) L then
                    F ← getIR;
                    _ ← assignJ [getParentName F; getName F; StringifyLoop F L]
                                placeholder;
                    mret (to_int (n + 1))
                  else mret n) : M Z) s1 = Ok (bump (ir s) n L, s2) ∧
               ir s2 = ir s ∧ written s2 = written s ∧
               errs s2 = errs s ++ skipDiag (ir s) ∧
               records (E ++ [(ir s, L)]) (j s2) ∧
               (verdict (ir s) L = false → j s2 = j s))
    as (s2 & Hstep & Hi & Hw & He & Hr2 & Hj).
  { unfold bump. destruct (verdict (ir s) L) eqn:Hv.
    - destruct (records_add E (ir s) L (j s) Hr Hv) as (jj' & Ha & Hr').
      exists (mkState (ir s) jj' (errs s1) (written s)). split_and!; try done.
      subst s1. munfold. cbn [ir j errs written]. by rewrite Ha.
    - exists s1. split_and!; try done. by apply records_skip. }
  unfold mbind at 1, M_bind at 1. rewrite Hstep.
  destruct (forLoops_exact subs IH (bump (ir s) n L) s2 _ Hr2)
    as (n3 & s3 & Hrun & Hi3 & Hw3 & He3 & Hn3 & Hr3 & Hj3).
  rewrite Hi in He3, Hn3, Hr3, Hj3.
  exists n3, s3. rewrite allLoops_eq. cbn [getSubLoops].
  split_and!.
  - done.
  - congruence.
  - congruence.
  - rewrite He3, He. cbn [mbind list_bind].
    change (list_bind ?f ?l) with (l ≫= f). by rewrite app_assoc.
  - done.
  - rewrite <- app_assoc in Hr3. done.
  - intros [Hv Hrest]%Forall_cons. rewrite Hj3, Hj; done.
Qed.

(** [runOnFunction], to the line. *)
Lemma runOnFunction_exact (s : PassState) (E : list (Function * Loop)) :
  records E (j s) →
  ∃ s', runOnFunction s = Ok (false, s') ∧
        ir s' = ir s ∧ written s' = written s ∧
        errs s' = errs s ++ (loopForest (ir s) ≫= λ _, skipDiag (ir s)) ∧
        records (E ++ ((λ L, (ir s, L)) <$> loopForest (ir s))) (j s') ∧
        (Forall (λ L, verdict (ir s) L = false) (loopForest (ir s)) → j s' = j s).
Proof.
  intros Hr. unfold runOnFunction, loopForest.
  destruct (forLoops_exact (getLoopInfo (ir s))
              ltac:(apply Forall_forall; intros; apply handleLoop_exact_all)
              0 s E Hr) as (n' & s' & Hrun & Hi & Hw & He & _ & Hr' & Hj).
  exists s'. split_and!; try done.
  munfold. cbn beta. by rewrite Hrun.
Qed.

Lemma runOnFunctions_exact (Fs : list Function) :
  ∀ (s : PassState) (E : list (Function * Loop)),
    records E (j s) →
    ∃ s', Host.runOnFunctions Fs s = Ok ((λ F, (false, F)) <$> Fs, s') ∧
          errs s' = errs s ++ (Fs ≫= λ F, loopForest F ≫= λ _, skipDiag F) ∧
          (Forall (λ F, Forall (λ L, verdict F L = false) (loopForest F)) Fs →
           j s' = j s).
Proof.
  induction Fs as [|F Fs IH]; intros s E Hr.
  - exists s. cbn. by rewrite app_nil_r.
  - set (s0 := mkState F (j s) (errs s) (written s)).
    destruct (runOnFunction_exact s0 E Hr) as (s1 & Hrun & Hi & Hw & He & Hr1 & Hj).
    destruct (IH s1 _ Hr1) as (s2 & Hrun2 & He2 & Hj2).
    exists s2. split_and!.
    + cbn [Host.runOnFunctions]. munfold. cbn beta iota. fold s0.
      rewrite Hrun. cbn beta iota. rewrite Hrun2. cbn. by rewrite Hi.
    + rewrite He2, He. cbn [mbind list_bind ir errs s0].
      change (list_bind ?f ?l) with (l ≫= f). by rewrite app_assoc.
    + intros [HF Hrest]%Forall_cons. rewrite Hj2, Hj; done.
Qed.

Lemma foldl_bump_count (F : Function) (Ls : list Loop) :
  ∀ n, - 2 ^ 31 ≤ n → n + Z.of_nat (length Ls) < 2 ^ 31 →
       foldl (bump F) n Ls
       = n + Z.of_nat (length (filter (λ L, verdict F L = true) Ls)).
Proof.
  induction Ls as [|L Ls IH]; intros n Hlo Hhi; cbn [foldl].
  - cbn. lia.
  - cbn [length] in Hhi. rewrite filter_cons. unfold bump at 2.
    pose proof (length_filter (λ L, verdict F L = true) Ls) as Hle.
    destruct (verdict F L) eqn:Hv.
    + rewrite decide_True by done. rewrite to_int_small by lia.
      rewrite IH by lia. cbn [length]. lia.
    + rewrite decide_False by congruence. rewrite IH by lia. done.
Qed.

End DiscoveryExact.

Section DiscoveryRuns.

Lemma skip_lines (F : Function) (Ls : list Loop) :
  (Ls ≫= λ _, skipDiag F) =
  if name_has_NO_PERF (getName F)
  then replicate (length Ls) (SkippingLoopInFunction (getName F))
  else [].
Proof.
  unfold skipDiag. induction Ls as [|L Ls IH]; cbn [mbind list_bind].
  - by destruct (name_has_NO_PERF _).
  - change (list_bind ?f ?l) with (l ≫= f). rewrite IH.
    by destruct (name_has_NO_PERF _).
Qed.

(** The whole life of the pass object, to the line. *)
Lemma runLoopCountPass_exact (InfoFilename : string) (Fs : list Function)
  (s : PassState) :
  ∃ s', Host.runLoopCountPass InfoFilename Fs s
        = Ok ((λ F, (false, F)) <$> Fs, s') ∧
        written s' = written s ++ [(InfoFilename, j s')] ∧
        errs s' = errs s ++ (Fs ≫= λ F, loopForest F ≫= λ _, skipDiag F) ∧
        records (forestEntries Fs) (j s') ∧
        (Forall (λ F, Forall (λ L, verdict F L = false) (loopForest F)) Fs →
         j s' = JNull).
Proof.
  destruct (runLoopCountPass_spec InfoFilename Fs s) as (s' & Hrun & Hw & _ & Hr).
  exists s'. split_and!; try done.
  - unfold Host.runLoopCountPass in Hrun.
    destruct (runOnFunctions_exact Fs (LoopCountPass.constructor s) [] records_nil)
      as (s1 & Hrun1 & He & _).
    revert Hrun. unfold mbind at 1, M_bind at 1. rewrite Hrun1.
    unfold LoopCountPass.destructor. munfold. intros [= <-]. done.
  - intros Hnone. unfold Host.runLoopCountPass in Hrun.
    destruct (runOnFunctions_exact Fs (LoopCountPass.constructor s) [] records_nil)
      as (s1 & Hrun1 & _ & Hj).
    revert Hrun. unfold mbind at 1, M_bind at 1. rewrite Hrun1.
    unfold LoopCountPass.destructor. munfold. intros [= <-]. cbn [j].
    by rewrite Hj.
Qed.

End DiscoveryRuns.

(** X10.  The discovery pass asks [isLoopPerforable] once for every loop of
    every forest: a run writes to [errs()] one skip line for each loop of
    each function whose name contains NO_PERF, function after function, and
    no other line. *)
Theorem X10_one_skip_line_per_loop (InfoFilename : string) (Fs : list Function)
  (s : PassState) :
  ∃ s',
    Host.runLoopCountPass InfoFilename Fs s = Ok ((λ F, (false, F)) <$> Fs, s') ∧
    errs s' =
      errs s ++
      (Fs ≫= λ F,
         if name_has_NO_PERF (getName F)
         then replicate (length (loopForest F)) (SkippingLoopInFunction (getName F))
         else []).
Proof.
  destruct (runLoopCountPass_exact InfoFilename Fs s) as (s' & Hrun & _ & He & _).
  exists s'. split; [done|]. rewrite He. f_equal. clear Hrun He.
  induction Fs as [|F Fs IH]; [done|].
  cbn [mbind list_bind]. change (list_bind ?f ?l) with (l ≫= f).
  by rewrite IH, skip_lines.
Qed.

(** X11.  [NumLoops] counts the perforable loops: from a catalog the pass
    has made, [handleLoop] returns the count it was given plus the number
    of perforable loops among the loop and the loops below it, as long as
    the count stays an [int]. *)
Theorem X11_NumLoops_counts (L : Loop) (n : Z) (s : PassState)
  (E : list (Function * Loop)) :
  records E (j s) →
  - 2 ^ 31 ≤ n → n + Z.of_nat (length (allLoops L)) < 2 ^ 31 →
  ∃ s',
    LoopCountPass.handleLoop L n s
    = Ok (n + Z.of_nat (length (filter (λ L', verdict (ir s) L' = true)
                                       (allLoops L))), s').
Proof.
  intros Hr Hlo Hhi.
  destruct (handleLoop_exact_all L n s E Hr) as (n' & s' & Hrun & _ & _ & _ & -> & _).
  exists s'. by rewrite Hrun, foldl_bump_count.
Qed.

Lemma X11_NumLoops_counts_witness :
  ∃ s',
    LoopCountPass.handleLoop
      (mkLoop "outer" ["outer"; "for.cond"; "for.body"; "for.inc"]%string false
              [Example.loop]) 0 (Example.world "foo")
    = Ok (0 + Z.of_nat (length (filter
                  (λ L', verdict (ir (Example.world "foo")) L' = true)
                  (allLoops (mkLoop "outer"
                     ["outer"; "for.cond"; "for.body"; "for.inc"]%string false
                     [Example.loop])))), s').
Proof.
  apply (X11_NumLoops_counts _ 0 (Example.world "foo") []).
  - apply records_nil.
  - lia.
  - by vm_compute.
Defined.

(** X12.  A run that finds no perforable loop writes the null value, and
    only such a run does: the catalog the destructor dumps is empty exactly
    when [isLoopPerforable] was false for every loop of every forest. *)
Theorem X12_nothing_found_writes_null (InfoFilename : string)
  (Fs : list Function) (s : PassState) :
  ∃ s',
    Host.runLoopCountPass InfoFilename Fs s = Ok ((λ F, (false, F)) <$> Fs, s') ∧
    written s' = written s ++ [(InfoFilename, j s')] ∧
    ((∀ F L, F ∈ Fs → L ∈ loopForest F → verdict F L = false) → j s' = JNull) ∧
    (Json.empty (j s') = true ↔
     ∀ F L, F ∈ Fs → L ∈ loopForest F → verdict F L = false).
Proof.
  destruct (runLoopCountPass_exact InfoFilename Fs s)
    as (s' & Hrun & Hw & _ & Hr & Hnull).
  assert ((∀ F L, F ∈ Fs → L ∈ loopForest F → verdict F L = false) → j s' = JNull)
    as Hnone.
  { intros H. apply Hnull. apply Forall_forall. intros F HF.
    apply Forall_forall. intros L HL. by apply H. }
  exists s'. split_and!; try done. split.
  - intros Hempty F L HF HL.
    destruct (verdict F L) eqn:Hv; [|done]. exfalso.
    assert (lookup3 (j s') (getParentName F) (getName F) (StringifyLoop F L)
            = Some placeholder) as Hl.
    { apply Hr. split; [done|]. exists F, L. split_and!; try done.
      by apply elem_of_forestEntries. }
    unfold lookup3 in Hl.
    destruct (member (j s') (getParentName F)) as [jm|] eqn:Em; [|done].
    apply member_not_empty in Em. congruence.
  - intros H. by rewrite (Hnone H).
Qed.

(** X13.  The catalog does not depend on the order in which the functions
    are handed to the pass, nor on a function being handed over twice: two
    runs over the same functions end with the same entry under every
    key. *)
Theorem X13_catalog_ignores_order (InfoFilename : string)
  (Fs Fs' : list Function) (s : PassState) :
  (∀ F, F ∈ Fs ↔ F ∈ Fs') →
  ∃ s1 s2,
    Host.runLoopCountPass InfoFilename Fs s = Ok ((λ F, (false, F)) <$> Fs, s1) ∧
    Host.runLoopCountPass InfoFilename Fs' s = Ok ((λ F, (false, F)) <$> Fs', s2) ∧
    ∀ m f fp, lookup3 (j s1) m f fp = lookup3 (j s2) m f fp.
Proof.
  intros Hsame.
  destruct (runLoopCountPass_spec InfoFilename Fs s) as (s1 & Hrun1 & _ & _ & _ & Hr1).
  destruct (runLoopCountPass_spec InfoFilename Fs' s) as (s2 & Hrun2 & _ & _ & _ & Hr2).
  exists s1, s2. split_and!; try done.
  assert (∀ m f fp leaf,
            lookup3 (j s1) m f fp = Some leaf ↔ lookup3 (j s2) m f fp = Some leaf)
    as Hiff.
  { intros m f fp leaf. rewrite Hr1, Hr2.
    split; intros (-> & F & L & [HF HL]%elem_of_forestEntries & Hv & Hk);
      (split; [done|]); exists F, L; (split_and!; try done);
      apply elem_of_forestEntries; (split; [by apply Hsame | done]). }
  intros m f fp.
  destruct (lookup3 (j s1) m f fp) as [leaf|] eqn:E1.
  - symmetry. by apply Hiff.
  - destruct (lookup3 (j s2) m f fp) as [leaf|] eqn:E2; [|done].
    apply Hiff in E2. congruence.
Qed.

Lemma X13_catalog_ignores_order_witness :
  ∃ s1 s2,
    Host.runLoopCountPass InfoFilename_default
      [Example.foo "foo"; Example.foo "bar"] (Example.world "foo")
    = Ok ((λ F, (false, F)) <$> [Example.foo "foo"; Example.foo "bar"], s1) ∧
    Host.runLoopCountPass InfoFilename_default
      [Example.foo "bar"; Example.foo "foo"; Example.foo "bar"] (Example.world "foo")
    = Ok ((λ F, (false, F))
            <$> [Example.foo "bar"; Example.foo "foo"; Example.foo "bar"], s2) ∧
    ∀ m f fp, lookup3 (j s1) m f fp = lookup3 (j s2) m f fp.
Proof.
  apply (X13_catalog_ignores_order InfoFilename_default
           [Example.foo "foo"; Example.foo "bar"]
           [Example.foo "bar"; Example.foo "foo"; Example.foo "bar"]
           (Example.world "foo")).
  intros F. rewrite !elem_of_cons. pose proof (not_elem_of_nil F). tauto.
Defined.

(* ===================================================================== *)
(** * Further properties of the fingerprint *)
(* ===================================================================== *)

Section Fingerprint.

Lemma string_app_nil_r (a : string) : a +:+ "" = a.
Proof.
  induction a as [|c a IH]; [done|].
  change (String c (a +:+ "") = String c a). by f_equal.
Qed.

Lemma string_app_assoc (a b c : string) : (a +:+ b) +:+ c = a +:+ (b +:+ c).
Proof.
  induction a as [|x a IH]; [done|].
  change (String x ((a +:+ b) +:+ c) = String x (a +:+ (b +:+ c))). by f_equal.
Qed.

(** The blocks after the first, each behind its comma. *)
Lemma foldl_later_blocks (F : Function) (L : Loop)
  (ps : list (nat * BasicBlockRef)) :
  ∀ acc,
    Forall (λ p, p.1 ≠ 0%nat) ps →
    foldl (λ LoopStream '(i, BB), LoopStream +:+ stringifyBlock F L i BB) acc ps
    = acc +:+ foldr (λ BB r, "," +:+ blockTag F L BB +:+ r) "" (ps.*2).
Proof.
  induction ps as [|[i BB] ps IH]; intros acc Hps; cbn [foldl fmap list_fmap foldr].
  - by rewrite string_app_nil_r.
  - apply Forall_cons in Hps as [Hi Hps]. cbn [fst] in Hi.
    rewrite IH by done. unfold stringifyBlock. rewrite decide_False by done.
    fold (blockTag F L BB). cbn [snd]. by rewrite !string_app_assoc.
Qed.

Lemma concat_commas (tags : list string) : ∀ t,
  t +:+ foldr (λ tag r, "," +:+ tag +:+ r) "" tags = String.concat "," (t :: tags).
Proof.
  induction tags as [|tag tags IH]; intros t; cbn [foldr String.concat].
  - apply string_app_nil_r.
  - by rewrite IH.
Qed.

Lemma foldr_fmap_tags (F : Function) (L : Loop) (l : list BasicBlockRef) :
  foldr (λ BB r, "," +:+ blockTag F L BB +:+ r) "" l
  = foldr (λ tag r, "," +:+ tag +:+ r) "" (blockTag F L <$> l).
Proof. induction l as [|BB l IH]; [done|]. cbn. by rewrite IH. Qed.

(** The fingerprint does not look at the verdict of loop-simplify nor at
    the sub-loops. *)
Lemma StringifyLoop_same_blocks (F : Function) (L L' : Loop) :
  getHeader L = getHeader L' → getBlocks L = getBlocks L' →
  StringifyLoop F L = StringifyLoop F L'.
Proof.
  intros Hh Hb. unfold StringifyLoop. rewrite <- Hb.
  apply foldl_ext_in. intros LoopStream [i BB] _. f_equal.
  unfold stringifyBlock, isLoopLatch, isLoopExiting, contains.
  by rewrite Hh, Hb.
Qed.

End Fingerprint.

(** X14.  The fingerprint is the list of the loop's blocks, in the order of
    [getBlocks], each as its label followed by its tags, with a comma
    between two blocks and none before the first or after the last; a
    loop without blocks has the empty fingerprint. *)
Theorem X14_fingerprint_is_comma_separated (F : Function) (L : Loop) :
  StringifyLoop F L = String.concat "," (blockTag F L <$> getBlocks L).
Proof.
  unfold StringifyLoop.
  destruct (getBlocks L) as [|BB l]; [done|].
  rewrite imap_cons. cbn [foldl fmap list_fmap].
  rewrite foldl_later_blocks.
  - rewrite fmap_imap.
    rewrite (imap_ext _ (const id)) by done.
    rewrite imap_const, list_fmap_id.
    unfold stringifyBlock. rewrite decide_True by done.
    fold (blockTag F L BB). cbn [String.append].
    rewrite foldr_fmap_tags. apply concat_commas.
  - apply Forall_forall. intros [i BB'] Hin.
    apply elem_of_lookup_imap in Hin as (k & x & [= -> ->] & _). done.
Qed.

(* ===================================================================== *)
(** * What the rewrite pass does not look at *)
(* ===================================================================== *)

Section RewriteInputs.

Lemma getCanonicalInductionVariable_same_blocks (F : Function) (L L' : Loop) :
  getHeader L = getHeader L' → getBlocks L = getBlocks L' →
  getCanonicalInductionVariable F L = getCanonicalInductionVariable F L'.
Proof.
  intros Hh Hb.
  unfold getCanonicalInductionVariable, getIncomingAndBackEdge, contains.
  by rewrite Hh, Hb.
Qed.

Lemma perforateOperands_same_blocks (L L' : Loop) (PHI Inc : nat)
  (ops : list Value) :
  (∀ F, StringifyLoop F L = StringifyLoop F L') →
  ∀ idx s, perforateOperands L PHI Inc idx ops s
           = perforateOperands L' PHI Inc idx ops s.
Proof.
  intros HS. induction ops as [|Op ops IH]; intros idx s; [done|].
  cbn [perforateOperands]. destruct (decide (Op = InstRef PHI)); [apply IH|].
  cbv beta iota delta [mbind M_bind mret M_ret getIR getJ].
  by rewrite HS.
Qed.

End RewriteInputs.

(** X15.  The rewrite pass looks at the header and the blocks of a loop
    and at nothing else of it: two loops that agree on these are treated
    alike, in simplified form or not, with or without sub-loops. *)
Theorem X15_rewrite_ignores_simplified_form (L L' : Loop) (s : PassState) :
  getHeader L = getHeader L' → getBlocks L = getBlocks L' →
  runOnLoop L s = runOnLoop L' s.
Proof.
  intros Hh Hb.
  assert (∀ F, StringifyLoop F L = StringifyLoop F L') as HS
    by (intros F; by apply StringifyLoop_same_blocks).
  assert (tableEntry s L' = tableEntry s L) as He
    by (unfold tableEntry; by rewrite HS).
  destruct (tableEntry s L) as [leaf|] eqn:E.
  - rewrite (runOnLoop_present L s leaf E), (runOnLoop_present L' s leaf He).
    rewrite <- (getCanonicalInductionVariable_same_blocks (ir s) L L' Hh Hb).
    destruct (getCanonicalInductionVariable (ir s) L) as [PHI|]; [|done].
    destruct (findValueToChange (ir s) PHI) as [[| Inc |]|]; try done.
    destruct (f_insts (ir s) !! Inc) as [[| opc ty op0 op1 |]|]; try done.
    by apply perforateOperands_same_blocks.
  - by rewrite (runOnLoop_absent L s E), (runOnLoop_absent L' s He).
Qed.

Lemma X15_rewrite_ignores_simplified_form_witness :
  runOnLoop Example.loop (Example.with_rate "foo" (JInt 4))
  = runOnLoop
      (mkLoop "for.cond" ["for.cond"; "for.body"; "for.inc"]%string false
              [Example.loop])
      (Example.with_rate "foo" (JInt 4)).
Proof.
  apply (X15_rewrite_ignores_simplified_form Example.loop
           (mkLoop "for.cond" ["for.cond"; "for.body"; "for.inc"]%string false
                   [Example.loop])
           (Example.with_rate "foo" (JInt 4))); reflexivity.
Defined.

(* ===================================================================== *)
(** * The rates file *)
(* ===================================================================== *)

(** X16.  Without a rates file the pass is constructed with the null table,
    whatever parser and whatever other files there are, and a pass with
    that table returns false from [runOnLoop] for every loop of every
    function and changes nothing. *)
Theorem X16_no_rates_file_no_rewrite (parse : string → outcome json)
  (fs : Files.disk) (RatesFilename : string) (s0 : PassState) :
  fs !! RatesFilename = None →
  Files.fileexists fs RatesFilename = 0 ∧
  ∃ s, Files.construct parse fs RatesFilename s0 = Ok s ∧
       j s = JNull ∧ ir s = ir s0 ∧ errs s = errs s0 ∧ written s = written s0 ∧
       ∀ L F, runOnLoop L (mkState F (j s) (errs s) (written s))
              = Ok (false, mkState F (j s) (errs s) (written s)).
Proof.
  intros Hno. unfold Files.construct, Files.readRates, Files.fileexists.
  rewrite Hno. split; [done|]. rewrite decide_False by (intros H; by apply H).
  eexists. split; [done|]. cbn [constructor j ir errs written].
  split_and!; try done.
Qed.

Lemma X16_no_rates_file_no_rewrite_witness :
  Files.fileexists {[ "loop-info.json"%string := "null"%string ]}
    RatesFilename_default = 0 ∧
  ∃ s, Files.construct (λ _, Fault JsonTypeError)
         {[ "loop-info.json"%string := "null"%string ]}
         RatesFilename_default (Example.world "foo") = Ok s ∧
       j s = JNull ∧ ir s = ir (Example.world "foo") ∧
       errs s = errs (Example.world "foo") ∧
       written s = written (Example.world "foo") ∧
       ∀ L F, runOnLoop L (mkState F (j s) (errs s) (written s))
              = Ok (false, mkState F (j s) (errs s) (written s)).
Proof.
  apply (X16_no_rates_file_no_rewrite (λ _, Fault JsonTypeError)
           {[ "loop-info.json"%string := "null"%string ]}
           RatesFilename_default (Example.world "foo")).
  by vm_compute.
Defined.

(* ===================================================================== *)
(** * Running the rewrite pass again *)
(* ===================================================================== *)

Section SecondRun.

Lemma phi_rule_replaceInstruction (F : Function) (Inc : nat)
  (opc opc' : BinaryOps) (ty ty' : Ty) (a b a' b' : Value) :
  f_insts F !! Inc = Some (BinaryOperator opc ty a b) →
  phi_rule F →
  phi_rule (replaceInstruction F Inc (BinaryOperator opc' ty' a' b')).
Proof.
  intros Hi Hwf blk PN tyP incoming Hb HPN Hphi.
  apply (Hwf blk PN tyP incoming Hb HPN).
  cbn [replaceInstruction f_insts] in Hphi.
  destruct (decide (PN = Inc)) as [->|Hne].
  - by rewrite list_lookup_insert_eq in Hphi by (by eapply lookup_lt_Some).
  - by rewrite list_lookup_insert_ne in Hphi.
Qed.

(** The increment of a canonical induction variable is the one instruction
    among its incoming values. *)
Lemma canonical_increment_unique (F : Function) (L : Loop) (PHI Inc Inc' : nat) :
  phi_rule F →
  getCanonicalInductionVariable F L = Some PHI →
  InstRef Inc ∈ incoming_values F PHI →
  InstRef Inc' ∈ incoming_values F PHI →
  Inc = Inc'.
Proof.
  intros Hwf Hiv H1 H2.
  destruct (canonical_shape F L PHI Hwf Hiv) as (b0 & I0 & ty & b1 & [Hs|Hs] & _);
    rewrite Hs in H1, H2;
    repeat (apply elem_of_cons in H1 as [H1|H1]);
    repeat (apply elem_of_cons in H2 as [H2|H2]);
    try congruence;
    try (by apply not_elem_of_nil in H1); by apply not_elem_of_nil in H2.
Qed.

(** Once its step is not 1 any more, the induction variable is not the
    canonical one of the loop. *)
Lemma rewritten_not_canonical (F : Function) (L : Loop) (PHI Inc : nat)
  (ty : Ty) (bits : N) (val : Z) :
  phi_rule F →
  getCanonicalInductionVariable F L = Some PHI →
  findValueToChange F PHI = Some (InstRef Inc) →
  f_insts F !! Inc = Some (BinaryOperator Add ty (InstRef PHI) (ConstantInt bits 1)) →
  val ≠ 1 →
  getCanonicalInductionVariable
    (replaceInstruction F Inc
       (BinaryOperator Add ty (InstRef PHI) (ConstantInt bits val))) L
  ≠ Some PHI.
Proof.
  intros Hwf Hiv Hf Hi Hval Hiv'.
  set (F' := replaceInstruction F Inc
               (BinaryOperator Add ty (InstRef PHI) (ConstantInt bits val))) in *.
  assert (phi_rule F') as Hwf' by (by eapply phi_rule_replaceInstruction).
  assert (PHI ≠ Inc) as Hne.
  { intros ->. destruct (canonical_edges F L Inc Hwf Hiv)
      as (? & ? & ? & ? & ? & ? & ? & ? & _ & _ & _ & Ephi & _). congruence. }
  assert (incoming_values F' PHI = incoming_values F PHI) as Hsame.
  { unfold incoming_values, F'. cbn [replaceInstruction f_insts].
    by rewrite list_lookup_insert_ne. }
  rewrite findValueToChange_spec in Hf.
  apply updating_value_Some in Hf as (u & Hu & Hin & _).
  injection Hu as Hu. subst u.
  destruct (canonical_edges F' L PHI Hwf' Hiv')
    as (? & ? & tyP & incoming & b0 & Inc' & ty' & b1 & _ & _ & _ & Ephi' & _ & _
        & Hshape & Hi').
  assert (InstRef Inc' ∈ incoming_values F PHI) as Hin'.
  { rewrite <- Hsame. unfold incoming_values. rewrite Ephi'.
    destruct Hshape as [-> | ->]; [right; left | left]. }
  assert (Inc' = Inc) as ->
    by (symmetry; apply (canonical_increment_unique F L PHI Inc Inc' Hwf Hiv Hin Hin')).
  unfold F' in Hi'. cbn [replaceInstruction f_insts] in Hi'.
  rewrite list_lookup_insert_eq in Hi' by (by eapply lookup_lt_Some).
  congruence.
Qed.

End SecondRun.

(** X17.  The rewrite pass is not made to be run twice.  After a perforable
    loop of verifier-clean IR was given a step other than 1, its induction
    variable is no longer the canonical one: a second [runOnLoop] over the
    same loop, with the same table, dereferences a null pointer, unless the
    header holds another canonical induction variable, which it then takes
    instead. *)
Theorem X17_second_run (L : Loop) (s : PassState) (R : Z) :
  phi_rule (ir s) →
  verdict (ir s) L = true →
  tableEntry s L = Some (JInt R) →
  ∃ PHI Inc ty bits s',
    getCanonicalInductionVariable (ir s) L = Some PHI ∧
    f_insts (ir s) !! Inc =
      Some (BinaryOperator Add ty (InstRef PHI) (ConstantInt bits 1)) ∧
    runOnLoop L s = Ok (true, s') ∧
    (to_int R mod 2 ^ Z.of_N bits ≠ 1 →
     getCanonicalInductionVariable (ir s') L ≠ Some PHI ∧
     (runOnLoop L s' = Fault NullDereference ∨
      ∃ PHI', PHI' ≠ PHI ∧ getCanonicalInductionVariable (ir s') L = Some PHI')).
Proof.
  intros Hwf Hv He.
  rewrite verdict_unfold in Hv.
  destruct (name_has_NO_PERF _); [done|].
  destruct (isLoopSimplifyForm L); [|done].
  destruct (getCanonicalInductionVariable (ir s) L) as [PHI|] eqn:Hiv; [|done].
  destruct (runOnLoop_canonical L s _ PHI Hwf Hiv He)
    as (Inc & ty & bits & Hf & Hi & Hrun).
  cbn [get_int] in Hrun. exists PHI, Inc, ty, bits. eexists.
  split_and!; [done | done | exact Hrun |].
  intros Hval. cbn [ir].
  pose proof (rewritten_not_canonical (ir s) L PHI Inc ty bits _
                Hwf Hiv Hf Hi Hval) as Hnot.
  split; [done|].
  match goal with |- runOnLoop L ?st = _ ∨ _ => set (s' := st) end.
  assert (tableEntry s' L = Some (JInt R)) as He' by exact He.
  destruct (getCanonicalInductionVariable
              (replaceInstruction (ir s) Inc
                 (BinaryOperator Add ty (InstRef PHI)
                    (ConstantInt bits (to_int R mod 2 ^ Z.of_N bits)))) L)
    as [PHI'|] eqn:Hiv'.
  - right. exists PHI'. split; [congruence | done].
  - left. rewrite (runOnLoop_present L s' _ He'). cbn [ir s']. by rewrite Hiv'.
Qed.

Lemma X17_second_run_witness :
  ∃ PHI Inc ty bits s',
    getCanonicalInductionVariable (ir (Example.with_rate "foo" (JInt 4))) Example.loop
    = Some PHI ∧
    f_insts (ir (Example.with_rate "foo" (JInt 4))) !! Inc =
      Some (BinaryOperator Add ty (InstRef PHI) (ConstantInt bits 1)) ∧
    runOnLoop Example.loop (Example.with_rate "foo" (JInt 4)) = Ok (true, s') ∧
    (to_int 4 mod 2 ^ Z.of_N bits ≠ 1 →
     getCanonicalInductionVariable (ir s') Example.loop ≠ Some PHI ∧
     (runOnLoop Example.loop s' = Fault NullDereference ∨
      ∃ PHI', PHI' ≠ PHI ∧
              getCanonicalInductionVariable (ir s') Example.loop = Some PHI')).
Proof.
  apply (X17_second_run Example.loop (Example.with_rate "foo" (JInt 4)) 4).
  - apply (Example_phi_rule 32).
  - by vm_compute.
  - by vm_compute.
Defined.

(* ===================================================================== *)
(** * What the eligibility check and the discovery pass write *)
(* ===================================================================== *)

(** C8 as the specification words it fails: asked about the loop of
    [foo_NO_PERF], [isLoopPerforable] writes a line to [errs()]. *)
Lemma C8_counterexample :
  isLoopPerforable Example.loop (Example.world "foo_NO_PERF")
  = Ok (false,
        mkState (Example.foo "foo_NO_PERF") JNull
                [SkippingLoopInFunction "foo_NO_PERF"] []) ∧
  errs (mkState (Example.foo "foo_NO_PERF") JNull
                [SkippingLoopInFunction "foo_NO_PERF"] [])
  ≠ errs (Example.world "foo_NO_PERF") ∧
  mkState (Example.foo "foo_NO_PERF") JNull
          [SkippingLoopInFunction "foo_NO_PERF"] []
  ≠ Example.world "foo_NO_PERF".
Proof. split_and!; [reflexivity | discriminate | discriminate]. Qed.

(** C8, as the code has it.  [isLoopPerforable] always returns and leaves
    the function, the pass's table and the files as they are.  Its one
    effect is on [errs()]: when the function's name contains NO_PERF it
    writes exactly one line, the skip line, and answers false; for any
    other name it leaves the whole state as it found it.  Its answer
    depends on the function and the loop only: asked again, in the state
    it left or in any other state with the same function, it answers the
    same.  When it answers true it has found an induction variable and, as
    its updating value, a binary operation; the rewrite pass, run on what
    the check left behind with the loop in its table, scans the operands of
    that same operation for that same induction variable, and when it
    reports a change the one instruction that differs afterwards is that
    operation, with one operand that was not the induction variable
    replaced. *)
Theorem C8_check_effects_and_rederivation (L : Loop) (s : PassState) :
  ∃ b s1,
    isLoopPerforable L s = Ok (b, s1) ∧
    ir s1 = ir s ∧ j s1 = j s ∧ written s1 = written s ∧
    (Spec.ineligible1 (ir s) →
     b = false ∧
     errs s1 = errs s ++ [SkippingLoopInFunction (getName (ir s))]) ∧
    (¬ Spec.ineligible1 (ir s) → s1 = s) ∧
    (∀ s', ir s' = ir s → ∃ s2, isLoopPerforable L s' = Ok (b, s2)) ∧
    (b = true →
     ∃ PHI Increment opc ty op0 op1,
       getCanonicalInductionVariable (ir s) L = Some PHI ∧
       findValueToChange (ir s) PHI = Some (InstRef Increment) ∧
       Spec.updating_value (ir s) PHI = Some (InstRef Increment) ∧
       f_insts (ir s) !! Increment = Some (BinaryOperator opc ty op0 op1) ∧
       (∀ leaf, tableEntry s1 L = Some leaf →
          runOnLoop L s1 = perforateOperands L PHI Increment 0 [op0; op1] s1) ∧
       (∀ s2, runOnLoop L s1 = Ok (true, s2) →
          ∃ k Op bits val,
            [op0; op1] !! k = Some Op ∧ Op ≠ InstRef PHI ∧
            (∀ k', (k' < k)%nat → [op0; op1] !! k' = Some (InstRef PHI)) ∧
            ir s2 = replaceInstruction (ir s) Increment
                      (setOperand (BinaryOperator opc ty op0 op1) k
                         (ConstantInt bits val)))).
Proof.
  exists (verdict (ir s) L),
    (mkState (ir s) (j s) (errs s ++ skipDiag (ir s)) (written s)).
  split; [apply isLoopPerforable_run|].
  unfold Spec.ineligible1, skipDiag. rewrite <- name_has_NO_PERF_spec.
  cbn [ir j errs written].
  split_and!; try done.
  - intros Hn. rewrite Hn. split; [by apply verdict_NO_PERF | done].
  - intros Hn. destruct (name_has_NO_PERF (getName (ir s))); [done|].
    by rewrite app_nil_r, state_eta.
  - intros s' <-. eexists. apply isLoopPerforable_run.
  - rewrite verdict_unfold.
    destruct (name_has_NO_PERF (getName (ir s))) eqn:Hname; [done|].
    rewrite app_nil_r, state_eta.
    destruct (isLoopSimplifyForm L); [|done].
    destruct (getCanonicalInductionVariable (ir s) L) as [PHI|] eqn:Hiv; [|done].
    destruct (findValueToChange (ir s) PHI) as [v|] eqn:Hv; [|done].
    unfold isa_BinaryOperator. destruct v as [| Inc |]; try done.
    destruct (f_insts (ir s) !! Inc) as [[| opc ty op0 op1 |]|] eqn:Hi; try done.
    intros _. exists PHI, Inc, opc, ty, op0, op1. split_and!; try done.
    + by rewrite <- findValueToChange_spec.
    + intros leaf He. rewrite (runOnLoop_present _ _ _ He).
      by rewrite Hiv, Hv, Hi.
    + intros s2 Hrun.
      destruct (tableEntry s L) as [leaf|] eqn:He;
        [|by rewrite (runOnLoop_absent L s He) in Hrun].
      rewrite (runOnLoop_present _ _ _ He), Hiv, Hv, Hi in Hrun.
      destruct (perforateOperands_effect L PHI Inc leaf _ _ _ _ _ He Hrun)
        as [[? _]|(_ & k & Op & bits & rate & Inst & Hk & Hop & Hpre & _ & _ & Hi' & ->)];
        [done|].
      rewrite Hi in Hi'. injection Hi' as <-.
      by exists k, Op, bits, (rate mod 2 ^ Z.of_N bits).
Qed.

Lemma C8_check_effects_and_rederivation_witness :
  ∃ s1,
    isLoopPerforable Example.loop (Example.with_rate "foo" (JInt 4))
    = Ok (true, s1) ∧
    s1 = Example.with_rate "foo" (JInt 4) ∧
    ∃ PHI Increment opc ty op0 op1,
      getCanonicalInductionVariable (ir (Example.with_rate "foo" (JInt 4)))
        Example.loop = Some PHI ∧
      findValueToChange (ir (Example.with_rate "foo" (JInt 4))) PHI
      = Some (InstRef Increment) ∧
      Spec.updating_value (ir (Example.with_rate "foo" (JInt 4))) PHI
      = Some (InstRef Increment) ∧
      f_insts (ir (Example.with_rate "foo" (JInt 4))) !! Increment
      = Some (BinaryOperator opc ty op0 op1) ∧
      (∀ leaf, tableEntry s1 Example.loop = Some leaf →
         runOnLoop Example.loop s1
         = perforateOperands Example.loop PHI Increment 0 [op0; op1] s1) ∧
      (∀ s2, runOnLoop Example.loop s1 = Ok (true, s2) →
         ∃ k Op bits val,
           [op0; op1] !! k = Some Op ∧ Op ≠ InstRef PHI ∧
           (∀ k', (k' < k)%nat → [op0; op1] !! k' = Some (InstRef PHI)) ∧
           ir s2 = replaceInstruction (ir (Example.with_rate "foo" (JInt 4)))
                     Increment
                     (setOperand (BinaryOperator opc ty op0 op1) k
                        (ConstantInt bits val))).
Proof.
  destruct (C8_check_effects_and_rederivation Example.loop
              (Example.with_rate "foo" (JInt 4)))
    as (b & s1 & Hrun & _ & _ & _ & _ & Hpure & _ & Hre).
  assert (isLoopPerforable Example.loop (Example.with_rate "foo" (JInt 4))
          = Ok (true, Example.with_rate "foo" (JInt 4))) as Hc by reflexivity.
  rewrite Hc in Hrun. injection Hrun as <- <-.
  exists (Example.with_rate "foo" (JInt 4)).
  split; [exact Hc|]. split; [reflexivity|]. exact (Hre eq_refl).
Defined.

(** C9 as the specification words it fails: a discovery run over
    [foo_NO_PERF] leaves, besides the catalog and the file, a line on
    [errs()]. *)
Lemma C9_counterexample :
  Host.runLoopCountPass InfoFilename_default [Example.foo "foo_NO_PERF"]
    (Example.world "foo_NO_PERF")
  = Ok ([(false, Example.foo "foo_NO_PERF")],
        mkState (Example.foo "foo_NO_PERF") JNull
                [SkippingLoopInFunction "foo_NO_PERF"]
                [(InfoFilename_default, JNull)]) ∧
  errs (mkState (Example.foo "foo_NO_PERF") JNull
                [SkippingLoopInFunction "foo_NO_PERF"]
                [(InfoFilename_default, JNull)])
  ≠ errs (Example.world "foo_NO_PERF").
Proof. split; [by vm_compute | discriminate]. Qed.

(** C9, as the code has it.  Whatever functions a discovery pass object is
    run over, every [runOnFunction] returns false and hands the function
    back as it came, and the one file the run writes is the catalog, dumped
    by the destructor.  Besides the catalog in memory and that file the run
    has one more effect: it writes to [errs()] one skip line for each loop
    of each function whose name contains NO_PERF, and nothing else; when no
    function has such a name, [errs()] is left alone.  The same holds call
    by call. *)
Theorem C9_discovery_effects (InfoFilename : string) (Fs : list Function)
  (s : PassState) :
  ∃ s',
    Host.runLoopCountPass InfoFilename Fs s = Ok ((λ F, (false, F)) <$> Fs, s') ∧
    written s' = written s ++ [(InfoFilename, j s')] ∧
    errs s' =
      errs s ++
      (Fs ≫= λ F,
         if name_has_NO_PERF (getName F)
         then replicate (length (loopForest F)) (SkippingLoopInFunction (getName F))
         else []) ∧
    ((∀ F, F ∈ Fs → ¬ Spec.has_substring "NO_PERF" (getName F)) →
     errs s' = errs s) ∧
    (∀ s0 E, records E (j s0) →
       ∃ s1, LoopCountPass.runOnFunction s0 = Ok (false, s1) ∧
             ir s1 = ir s0 ∧ written s1 = written s0 ∧
             errs s1 =
               errs s0 ++
               (if name_has_NO_PERF (getName (ir s0))
                then replicate (length (loopForest (ir s0)))
                       (SkippingLoopInFunction (getName (ir s0)))
                else [])).
Proof.
  destruct (runLoopCountPass_exact InfoFilename Fs s) as (s' & Hrun & Hw & He & _).
  assert (∀ Gs : list Function,
            (Gs ≫= λ F, loopForest F ≫= λ _, skipDiag F) =
            (Gs ≫= λ F,
               if name_has_NO_PERF (getName F)
               then replicate (length (loopForest F))
                      (SkippingLoopInFunction (getName F))
               else [])) as Hlines.
  { induction Gs as [|G Gs IH]; [done|].
    cbn [mbind list_bind]. change (list_bind ?f ?l) with (l ≫= f).
    by rewrite IH, skip_lines. }
  exists s'. split_and!; try done.
  - by rewrite He, Hlines.
  - intros Hnone. rewrite He, Hlines.
    assert ((Fs ≫= λ F,
               if name_has_NO_PERF (getName F)
               then replicate (length (loopForest F))
                      (SkippingLoopInFunction (getName F))
               else []) = []) as ->; [|by rewrite app_nil_r].
    clear Hrun Hw He Hlines. induction Fs as [|F Fs IH]; [done|].
    cbn [mbind list_bind]. change (list_bind ?f ?l) with (l ≫= f).
    rewrite IH by (intros G HG; apply Hnone; by right).
    destruct (name_has_NO_PERF (getName F)) eqn:Hn; [|done].
    exfalso. apply (Hnone F); [left | by apply name_has_NO_PERF_spec].
  - intros s0 E Hr.
    destruct (runOnFunction_exact s0 E Hr) as (s1 & Hrun1 & Hi & Hw1 & He1 & _).
    exists s1. split_and!; try done. by rewrite He1, skip_lines.
Qed.

Lemma C9_discovery_effects_witness :
  ∃ s',
    Host.runLoopCountPass InfoFilename_default [Example.foo "foo"]
      (Example.world "foo")
    = Ok ((λ F, (false, F)) <$> [Example.foo "foo"], s') ∧
    written s' = written (Example.world "foo") ++ [(InfoFilename_default, j s')] ∧
    errs s' = errs (Example.world "foo") ∧
    ∃ s1, LoopCountPass.runOnFunction (Example.world "foo_NO_PERF") = Ok (false, s1) ∧
          ir s1 = ir (Example.world "foo_NO_PERF") ∧
          written s1 = written (Example.world "foo_NO_PERF") ∧
          errs s1 =
            errs (Example.world "foo_NO_PERF") ++
            (if name_has_NO_PERF (getName (ir (Example.world "foo_NO_PERF")))
             then replicate (length (loopForest (ir (Example.world "foo_NO_PERF"))))
                    (SkippingLoopInFunction
                       (getName (ir (Example.world "foo_NO_PERF"))))
             else []).
Proof.
  destruct (C9_discovery_effects InfoFilename_default [Example.foo "foo"]
              (Example.world "foo"))
    as (s' & Hrun & Hw & _ & Hnone & Hcall).
  exists s'. split; [exact Hrun|]. split; [exact Hw|]. split.
  - apply Hnone. intros F HF Hs.
    apply list_elem_of_singleton in HF. subst F.
    apply name_has_NO_PERF_spec in Hs. vm_compute in Hs. discriminate.
  - apply (Hcall (Example.world "foo_NO_PERF") []). apply records_nil.
Defined.
